(** * plugo: dependency resolution and activation of plugins

    A shallow embedding of [load_plugins]
    (src/plugo/services/plugin_manager.py) and the properties of its
    policy construction, catalog construction, depth-first resolution and
    activation loop.

    Python sets and the key sets of the marker dictionaries [visited] and
    [temp_marks] are [gset string]; the dictionary [plugin_info] is a
    [gmap string plugin]; [loading_order] is a list.  The order in which
    Python iterates over a set is not fixed by the language, so it is a
    function [set_iter] of which only the membership contract is assumed.
    The plugin code run by importlib is outside the program: it is an
    oracle acting on an abstract [World], whose calls may return, raise
    an exception deriving from [Exception], or raise one that does not
    ([SystemExit], [KeyboardInterrupt]) and so escapes [load_plugins].

    The inputs are taken well-typed: every configuration entry is an
    object with a ["name"] and an ["enabled"] key, a metadata file that
    decodes is a JSON object, and dependency names are strings; on a
    file that decodes to something else the code raises outside any
    [try], and the types here have no such input.  Whitespace is the
    ASCII whitespace.  [visit] recurses as deep as the catalog asks for;
    the interpreter's recursion limit is not part of the model.  The
    closing report (lines 252-275) does not touch the returned set and
    is modelled apart from [load_plugins]. *)

From stdpp Require Import gmap strings list fin_maps relations.
From Stdlib Require Import Ascii String.

Local Open Scope string_scope.
Local Open Scope list_scope.

(** ** Configuration file and policy sets (lines 73-106) *)

(** One element of [config_data["plugins"]]: [plugin["name"]] and the
    truth value of [plugin["enabled"]]. *)
Record config_entry := ConfigEntry { name : string; enabled : bool }.

(** What reading the configuration file gives: no file, a JSON decoding
    error, or the list [config_data.get("plugins", [])]. *)
Inductive config_file :=
| ConfigMissing
| ConfigBadJson
| ConfigData (plugins : list config_entry).

Record policy := Policy {
  enabled_plugins : gset string;
  disabled_plugins : gset string
}.

(** Body of the loop of lines 86-92. *)
Definition add_entry (pol : policy) (plugin : config_entry) : policy :=
  if enabled plugin
  then {| enabled_plugins := enabled_plugins pol ∪ {[ name plugin ]};
          disabled_plugins := disabled_plugins pol |}
  else {| enabled_plugins := enabled_plugins pol;
          disabled_plugins := disabled_plugins pol ∪ {[ name plugin ]} |}.

Definition populate (plugins : list config_entry) : policy :=
  foldl add_entry {| enabled_plugins := ∅; disabled_plugins := ∅ |} plugins.

(** *** The ENABLED_PLUGINS environment variable (lines 95-103) *)

(** [str.isspace] on the code points below 128. *)
Definition is_space (c : ascii) : bool :=
  let n := nat_of_ascii c in
  ((9 <=? n) && (n <=? 13) || (28 <=? n) && (n <=? 32))%nat.

Fixpoint lstrip (s : string) : string :=
  match s with
  | String c rest => if is_space c then lstrip rest else s
  | EmptyString => EmptyString
  end.

Fixpoint rstrip (s : string) : string :=
  match s with
  | String c rest =>
      match rstrip rest with
      | EmptyString => if is_space c then EmptyString else String c EmptyString
      | rest' => String c rest'
      end
  | EmptyString => EmptyString
  end.

Definition strip (s : string) : string := rstrip (lstrip s).

(** [s.split(",")]: the fields between commas, always at least one. *)
Fixpoint split_comma (s : string) : list string :=
  match s with
  | EmptyString => [EmptyString]
  | String c rest =>
      if Ascii.eqb c ","%char then EmptyString :: split_comma rest
      else match split_comma rest with
           | field :: fields => String c field :: fields
           | [] => [String c EmptyString]
           end
  end.

Definition nonempty (s : string) : bool :=
  match s with EmptyString => false | _ => true end.

(** [[plugin.strip() for plugin in env_plugins.split(",") if plugin.strip()]] *)
Definition env_plugin_list (env_plugins : string) : list string :=
  strip <$> filter (λ plugin, nonempty (strip plugin) = true) (split_comma env_plugins).

(** [enabled_plugins.update(l)] and [disabled_plugins.difference_update(l)];
    with an empty variable the branch of line 96 is not taken. *)
Definition apply_env (env_plugins : string) (pol : policy) : policy :=
  if nonempty env_plugins
  then {| enabled_plugins := enabled_plugins pol ∪ list_to_set (env_plugin_list env_plugins);
          disabled_plugins := disabled_plugins pol ∖ list_to_set (env_plugin_list env_plugins) |}
  else pol.

Definition build_policy (plugins : list config_entry) (env_plugins : string) : policy :=
  apply_env env_plugins (populate plugins).


(** ** Catalog construction (lines 108-179) *)

(** The per-plugin dictionary of lines 173-179.  Its ["path"],
    ["metadata"] and ["module"] entries hold values that no decision of
    [load_plugins] reads; ["dependencies"] and ["is_loaded"] are kept. *)
Record plugin := Plugin { dependencies : list string; is_loaded : bool }.

(** The content of metadata.json: a JSON decoding error, or an object
    whose ["dependencies"] key is absent, holds a list, or holds
    something that is not a list. *)
Inductive dependencies_field :=
| DepsAbsent
| DepsList (deps : list string)
| DepsNotList.

Inductive metadata_file :=
| MetadataBadJson
| MetadataObject (field : dependencies_field).

(** One name returned by [os.listdir(plugin_directory)]. *)
Record dir_entry := DirEntry {
  entry_name : string;
  is_dir : bool;
  has_metadata_json : bool;
  has_plugin_py : bool;
  metadata : metadata_file
}.

Record catalog := Catalog {
  plugin_info : gmap string plugin;
  all_plugins_in_directory : gset string
}.

Definition new_plugin (deps : list string) : plugin :=
  {| dependencies := deps; is_loaded := false |}.

(** Body of the loop of lines 111-179 (the requirements.txt step only
    logs and installs packages). *)
Definition scan_entry (cat : catalog) (e : dir_entry) : catalog :=
  if negb (is_dir e) then cat
  else
    let all := all_plugins_in_directory cat ∪ {[ entry_name e ]} in
    let skipped := {| plugin_info := plugin_info cat; all_plugins_in_directory := all |} in
    if negb (has_metadata_json e) || negb (has_plugin_py e) then skipped
    else match metadata e with
         | MetadataBadJson => skipped
         | MetadataObject DepsNotList => skipped
         | MetadataObject DepsAbsent =>
             {| plugin_info := <[ entry_name e := new_plugin [] ]> (plugin_info cat);
                all_plugins_in_directory := all |}
         | MetadataObject (DepsList deps) =>
             {| plugin_info := <[ entry_name e := new_plugin deps ]> (plugin_info cat);
                all_plugins_in_directory := all |}
         end.

Definition build_catalog (listing : list dir_entry) : catalog :=
  foldl scan_entry {| plugin_info := ∅; all_plugins_in_directory := ∅ |} listing.

(** ** Dependency resolution (lines 181-226) *)

(** The three [raise Exception(...)] of [visit], told apart by their
    message. *)
Inductive error :=
| CircularDependency (plugin_name : string)
| UnknownPlugin (plugin_name : string)
| RequiredButDisabled (plugin_name : string).

(** A computation that finishes, raises, or exhausts the recursion
    budget of the model. *)
Inductive res (A : Type) :=
| Done (a : A)
| Raised (e : error)
| OutOfFuel.
Arguments Done {A} a.
Arguments Raised {A} e.
Arguments OutOfFuel {A}.

Definition res_bind {A B} (m : res A) (k : A → res B) : res B :=
  match m with
  | Done a => k a
  | Raised e => Raised e
  | OutOfFuel => OutOfFuel
  end.

Notation "x ←← m ; k" := (res_bind m (λ x, k))
  (at level 100, m at next level, right associativity, only parsing).

(** The three variables that [visit] closes over and mutates. *)
Record marks := Marks {
  loading_order : list string;
  visited : gset string;
  temp_marks : gset string
}.

Definition no_marks : marks :=
  {| loading_order := []; visited := ∅; temp_marks := ∅ |}.

(** [for dep in deps: visit(dep)] *)
Fixpoint visit_each (visit : string → marks → res marks)
    (deps : list string) (st : marks) : res marks :=
  match deps with
  | [] => Done st
  | dep :: rest => st' ←← visit dep st; visit_each visit rest st'
  end.

Section Resolver.
Variable info : gmap string plugin.
Variable disabled : gset string.

(** [visit] (lines 186-212); [fuel] bounds the depth of the recursion.
    A stored plugin dictionary is never empty, so [if not plugin] holds
    exactly when [plugin_info.get] found nothing. *)
Fixpoint visit (fuel : nat) (plugin_name : string) (st : marks) : res marks :=
  match fuel with
  | O => OutOfFuel
  | S fuel' =>
      if decide (plugin_name ∈ temp_marks st) then Raised (CircularDependency plugin_name)
      else if decide (plugin_name ∈ visited st) then Done st
      else
        let st1 := {| loading_order := loading_order st;
                      visited := visited st;
                      temp_marks := temp_marks st ∪ {[ plugin_name ]} |} in
        match info !! plugin_name with
        | None => Raised (UnknownPlugin plugin_name)
        | Some plugin =>
            if decide (plugin_name ∈ disabled) then Raised (RequiredButDisabled plugin_name)
            else
              st2 ←← visit_each (visit fuel') (dependencies plugin) st1;
              Done {| loading_order := loading_order st2 ++ [plugin_name];
                      visited := visited st2 ∪ {[ plugin_name ]};
                      temp_marks := temp_marks st2 ∖ {[ plugin_name ]} |}
        end
  end.

(** The loop of lines 216-223 over [list(enabled_plugins)]. *)
Fixpoint visit_enabled (fuel : nat) (names : list string) (st : marks) : res marks :=
  match names with
  | [] => Done st
  | plugin_name :: rest =>
      match info !! plugin_name with
      | None => visit_enabled fuel rest st
      | Some _ =>
          if decide (plugin_name ∈ visited st) then visit_enabled fuel rest st
          else st' ←← visit fuel plugin_name st; visit_enabled fuel rest st'
      end
  end.

(** A recursion budget that [visit] never exhausts (see
    [resolve_total]): one level per catalog entry, plus one. *)
Definition depth_budget : nat := S (size info).

Definition resolve (names : list string) : res (list string) :=
  st ←← visit_enabled depth_budget names no_marks; Done (loading_order st).
End Resolver.

(** ** Activation (lines 228-250) *)

(** What [spec.loader.exec_module(plugin_module)] did: raised an
    exception that derives from [Exception], built a module that has or
    lacks an [init_plugin] attribute, or raised an exception outside
    [Exception] ([SystemExit], [KeyboardInterrupt], [GeneratorExit]),
    which the [except Exception] of line 249 does not catch. *)
Inductive exec_result :=
| ExecRaised
| ExecOk (has_init_plugin : bool)
| ExecAborted.

(** What the call of [plugin_module.init_plugin] did: returned,
    raised an exception that derives from [Exception], or raised one
    that does not. *)
Inductive init_result :=
| InitReturned
| InitRaised
| InitAborted.

(** The plugin code, acting on the world outside the program. *)
Record activator (World : Type) := Activator {
  exec_module : string → World → exec_result * World;
  init_plugin : string → World → init_result * World
}.
Arguments exec_module {World} _ _ _.
Arguments init_plugin {World} _ _ _.

Record act_state (World : Type) := ActState {
  act_info : gmap string plugin;
  world : World;
  attempted : list string
}.
Arguments ActState {World} _ _ _.
Arguments act_info {World} _.
Arguments world {World} _.
Arguments attempted {World} _.

Definition set_loaded (p : plugin) : plugin :=
  {| dependencies := dependencies p; is_loaded := true |}.

(** An exception that leaves the activation loop. *)
Inductive escape :=
| KeyErrorEscapes
| BaseExceptionEscapes.

(** How the activation loop ends: it ran over the whole order, or an
    exception left it in the state reached so far. *)
Inductive activation (World : Type) :=
| Completed (a : act_state World)
| Escaped (why : escape) (a : act_state World).
Arguments Completed {World} a.
Arguments Escaped {World} why a.

Section Activation.
Context {World : Type}.
Variable act : activator World.

(** Body of the loop of lines 229-250.  The [KeyError] of
    [plugin_info[plugin_name]] is raised outside the [try]; an exception
    of the plugin code that does not derive from [Exception] passes the
    [except] clause.  Both leave the loop and [load_plugins]. *)
Definition activate_one (a : act_state World) (plugin_name : string)
    : activation World :=
  match act_info a !! plugin_name with
  | None => Escaped KeyErrorEscapes a
  | Some plugin =>
      let tried := attempted a ++ [plugin_name] in
      match exec_module act plugin_name (world a) with
      | (ExecRaised, w1) => Completed (ActState (act_info a) w1 tried)
      | (ExecOk false, w1) => Completed (ActState (act_info a) w1 tried)
      | (ExecOk true, w1) =>
          match init_plugin act plugin_name w1 with
          | (InitReturned, w2) =>
              Completed (ActState (<[ plugin_name := set_loaded plugin ]> (act_info a)) w2 tried)
          | (InitRaised, w2) => Completed (ActState (act_info a) w2 tried)
          | (InitAborted, w2) => Escaped BaseExceptionEscapes (ActState (act_info a) w2 tried)
          end
      | (ExecAborted, w1) => Escaped BaseExceptionEscapes (ActState (act_info a) w1 tried)
      end
  end.

Fixpoint activate_all (order : list string) (a : act_state World)
    : activation World :=
  match order with
  | [] => Completed a
  | plugin_name :: rest =>
      match activate_one a plugin_name with
      | Completed a' => activate_all rest a'
      | Escaped why a' => Escaped why a'
      end
  end.
End Activation.

(** ** [load_plugins] *)

Inductive abort :=
| NoPluginDirectory
| NoConfigFile
| ConfigNotJson
| ResolutionFailed (e : error)
| RecursionLimit.

(** How a call ends: an error is logged and the function returns [None];
    it returns the set [loaded_plugins]; or an exception escapes.
    [RecursionLimit] stands for an exhausted recursion, which the
    [except Exception] of line 224 would catch like the other errors. *)
Inductive outcome :=
| ReturnNone (why : abort)
| ReturnSet (loaded_plugins : gset string)
| UncaughtKeyError
| UncaughtBaseException.

Record run (World : Type) := Run {
  result : outcome;
  final : act_state World
}.
Arguments Run {World} _ _.
Arguments result {World} _.
Arguments final {World} _.

Section LoadPlugins.
Context {World : Type}.
Variable set_iter : gset string → list string.
Variable act : activator World.

(** [load_plugins] (lines 17-277).  [plugin_directory] is [None] when the
    directory does not exist (line 60); the run keeps the final catalog,
    the world and the names handed to the plugin code.  The returned set
    is [set(loading_order)] (line 253). *)
Definition load_plugins (plugin_directory : option (list dir_entry))
    (config : config_file) (env_plugins : string) (w : World) : run World :=
  match plugin_directory with
  | None => Run (ReturnNone NoPluginDirectory) (ActState ∅ w [])
  | Some listing =>
      match config with
      | ConfigMissing => Run (ReturnNone NoConfigFile) (ActState ∅ w [])
      | ConfigBadJson => Run (ReturnNone ConfigNotJson) (ActState ∅ w [])
      | ConfigData plugins =>
          let pol := build_policy plugins env_plugins in
          let cat := build_catalog listing in
          let start := ActState (plugin_info cat) w [] in
          match resolve (plugin_info cat) (disabled_plugins pol)
                  (set_iter (enabled_plugins pol)) with
          | Raised e => Run (ReturnNone (ResolutionFailed e)) start
          | OutOfFuel => Run (ReturnNone RecursionLimit) start
          | Done order =>
              match activate_all act order start with
              | Completed a => Run (ReturnSet (list_to_set order)) a
              | Escaped KeyErrorEscapes a => Run UncaughtKeyError a
              | Escaped BaseExceptionEscapes a => Run UncaughtBaseException a
              end
          end
      end
  end.
End LoadPlugins.

(** ** Requirements of a plugin directory (lines 119-148) *)

(** What [get_distribution(req)] answers: the requirement is installed,
    it raises [DistributionNotFound] or [VersionConflict], or it raises
    something else. *)
Inductive distribution_check :=
| DistFound
| DistMissing
| DistError.

(** The packaging tools.  [parse_requirement] is [false] when
    [PkgRequirement.parse] raises; [pip_install] answers [false] when
    [subprocess.check_call] raises. *)
Record provisioner (World : Type) := Provisioner {
  parse_requirement : string → bool;
  get_distribution : string → World → distribution_check;
  pip_install : string → World → bool * World
}.
Arguments parse_requirement {World} _ _.
Arguments get_distribution {World} _ _ _.
Arguments pip_install {World} _ _ _.

(** The world and the lines handed to pip so far. *)
Record prov_state (World : Type) := ProvState {
  prov_world : World;
  pip_calls : list string
}.
Arguments ProvState {World} _ _.
Arguments prov_world {World} _.
Arguments pip_calls {World} _.

(** [line.startswith("#")] *)
Definition starts_with_hash (s : string) : bool :=
  match s with
  | String c _ => Ascii.eqb c "#"%char
  | EmptyString => false
  end.

(** [line and not line.startswith("#")], on the stripped line. *)
Definition is_requirement (line : string) : bool :=
  nonempty line && negb (starts_with_hash line).

Section Provisioning.
Context {World : Type}.
Variable prov : provisioner World.

(** Body of the loop of lines 124-146; every exception raised inside is
    caught at line 143 and only logged. *)
Definition process_line (st : prov_state World) (raw : string) : prov_state World :=
  let line := strip raw in
  if is_requirement line then
    if parse_requirement prov line then
      match get_distribution prov line (prov_world st) with
      | DistFound => st
      | DistMissing =>
          let '(_, w') := pip_install prov line (prov_world st) in
          ProvState w' (pip_calls st ++ [line])
      | DistError => st
      end
    else st
  else st.

(** Lines 120-148 for one plugin directory: [None] when it holds no
    requirements.txt. *)
Definition process_requirements (file : option (list string))
    (st : prov_state World) : prov_state World :=
  match file with
  | Some lines => foldl process_line st lines
  | None => st
  end.

(** The requirements step over the whole listing; [requirements_txt]
    gives the lines of the file of a plugin directory. *)
Definition provision_entry (requirements_txt : string → option (list string))
    (st : prov_state World) (e : dir_entry) : prov_state World :=
  if negb (is_dir e) then st
  else process_requirements (requirements_txt (entry_name e)) st.

Definition provision (requirements_txt : string → option (list string))
    (listing : list dir_entry) (w : World) : prov_state World :=
  foldl (provision_entry requirements_txt) (ProvState w []) listing.
End Provisioning.

(** ** The closing report (lines 252-275) *)

(** The four messages of the closing loops, each with the plugin name it
    carries. *)
Inductive notice :=
| DisabledNotLoaded (plugin_name : string)
| NotEnabledNotLoaded (plugin_name : string)
| NotLoadedUnknownReason (plugin_name : string)
| DisabledNotFound (plugin_name : string).

(** Body of the loop of lines 256-265. *)
Definition classify_not_loaded (pol : policy) (info : gmap string plugin)
    (plugin_name : string) : notice :=
  if decide (plugin_name ∈ disabled_plugins pol) then DisabledNotLoaded plugin_name
  else if decide ((plugin_name ∉ enabled_plugins pol) ∧ is_Some (info !! plugin_name))
  then NotEnabledNotLoaded plugin_name
  else NotLoadedUnknownReason plugin_name.

(** Lines 253-275: the messages logged before [loaded_plugins] is
    returned, in the order they are logged. *)
Definition closing_report (set_iter : gset string → list string) (pol : policy)
    (info : gmap string plugin) (all_plugins : gset string)
    (loaded_plugins : gset string) : list notice :=
  let not_loaded_plugins := all_plugins ∖ loaded_plugins in
  (classify_not_loaded pol info <$> set_iter not_loaded_plugins) ++
  (DisabledNotFound <$>
     filter (λ plugin_name, plugin_name ∉ all_plugins) (set_iter (disabled_plugins pol))).

(** The closing report of a whole call; nothing is reported when the
    call returns [None]. *)
Definition load_plugins_report {World : Type} (set_iter : gset string → list string)
    (act : activator World) (plugin_directory : option (list dir_entry))
    (config : config_file) (env_plugins : string) (w : World) : list notice :=
  match plugin_directory, config with
  | Some listing, ConfigData plugins =>
      let r := load_plugins set_iter act plugin_directory config env_plugins w in
      match result r with
      | ReturnSet loaded_plugins =>
          closing_report set_iter (build_policy plugins env_plugins)
            (act_info (final r))
            (all_plugins_in_directory (build_catalog listing)) loaded_plugins
      | _ => []
      end
  | _, _ => []
  end.

(** * Vocabulary of the properties *)

(** The flag of the last configuration entry that mentions [n]. *)
Fixpoint last_mention (plugins : list config_entry) (n : string) : option bool :=
  match plugins with
  | [] => None
  | e :: rest =>
      match last_mention rest n with
      | Some b => Some b
      | None => if decide (name e = n) then Some (enabled e) else None
      end
  end.

(** "The later-read entry wins": [n] is classified by the last entry that
    mentions it, in one of the two sets and not in the other. *)
Definition last_write_wins (plugins : list config_entry) (n : string) : Prop :=
  match last_mention plugins n with
  | Some true =>
      n ∈ enabled_plugins (populate plugins) ∧ n ∉ disabled_plugins (populate plugins)
  | Some false =>
      n ∈ disabled_plugins (populate plugins) ∧ n ∉ enabled_plugins (populate plugins)
  | None => True
  end.

(** [b] is a declared dependency of the catalog plugin [a]. *)
Definition dep (info : gmap string plugin) (a b : string) : Prop :=
  ∃ p, info !! a = Some p ∧ b ∈ dependencies p.

(** The transitive dependency closure of a set of names: the names
    themselves and everything their dependency edges lead to. *)
Definition closure (info : gmap string plugin) (names : gset string) (x : string) : Prop :=
  ∃ r, r ∈ names ∧ rtc (dep info) r x.

(** [x] lies on a dependency cycle (a self-dependency is a cycle of
    length one). *)
Definition on_cycle (info : gmap string plugin) (x : string) : Prop :=
  tc (dep info) x x.

(** What the traversal walks: names reached from a root that has a
    descriptor. *)
Definition reach (info : gmap string plugin) (roots : string → Prop) (x : string) : Prop :=
  ∃ r, roots r ∧ is_Some (info !! r) ∧ rtc (dep info) r x.

(** What each error says about the name it carries. *)
Definition justified (info : gmap string plugin) (disabled : gset string)
    (roots : string → Prop) (e : error) : Prop :=
  match e with
  | CircularDependency x => reach info roots x ∧ on_cycle info x
  | UnknownPlugin x => reach info roots x ∧ info !! x = None
  | RequiredButDisabled x => reach info roots x ∧ is_Some (info !! x) ∧ x ∈ disabled
  end.

(** Every dependency of the plugin at position [i] sits at an earlier
    position. *)
Definition deps_before (info : gmap string plugin) (order : list string) : Prop :=
  ∀ i x p d, order !! i = Some x → info !! x = Some p → d ∈ dependencies p →
    ∃ j, j < i ∧ order !! j = Some d.

(** The invariant of the traversal. *)
Record marks_ok (info : gmap string plugin) (disabled : gset string)
    (roots : string → Prop) (st : marks) : Prop := MarksOk {
  ok_nodup : NoDup (loading_order st);
  ok_visited : ∀ x, x ∈ loading_order st ↔ x ∈ visited st;
  ok_entry : ∀ x, x ∈ visited st →
    is_Some (info !! x) ∧ (x ∉ disabled) ∧ reach info roots x;
  ok_before : deps_before info (loading_order st);
  ok_temp : ∀ x, x ∈ temp_marks st → x ∉ visited st
}.

(** [y] is marked loaded in the catalog [m]. *)
Definition loaded_in (m : gmap string plugin) (y : string) : Prop :=
  ∃ p, m !! y = Some p ∧ is_loaded p = true.

(** A directory entry that reaches the catalog: a directory holding both
    files, whose metadata is an object with a list of dependencies or
    with none declared. *)
Definition well_formed (e : dir_entry) : Prop :=
  is_dir e = true ∧ has_metadata_json e = true ∧ has_plugin_py e = true ∧
  (metadata e = MetadataObject DepsAbsent ∨
   ∃ deps, metadata e = MetadataObject (DepsList deps)).

(** ** Sample inputs *)

Definition plugin_dir (n : string) (deps : list string) : dir_entry :=
  DirEntry n true true true (MetadataObject (DepsList deps)).

Definition sample_listing : list dir_entry :=
  [plugin_dir "A" []; plugin_dir "B" ["A"]; plugin_dir "C" ["X"]].

Definition cyclic_listing : list dir_entry :=
  [plugin_dir "A" ["B"]; plugin_dir "B" ["A"]].

Definition chain_listing : list dir_entry :=
  [plugin_dir "A" []; plugin_dir "B" ["A"]].

Definition masked_cycle_listing : list dir_entry :=
  [plugin_dir "A" ["D"; "A"]; plugin_dir "D" []].

Definition dangling_listing : list dir_entry :=
  [plugin_dir "B" ["A"]].

(** Plugin code that always fails to import, and plugin code that
    always initialises. *)
Definition failing_activator : activator unit :=
  Activator unit (λ _ w, (ExecRaised, w)) (λ _ w, (InitReturned, w)).

Definition working_activator : activator unit :=
  Activator unit (λ _ w, (ExecOk true, w)) (λ _ w, (InitReturned, w)).

(** Plugin code without an [init_plugin] function. *)
Definition hookless_activator : activator unit :=
  Activator unit (λ _ w, (ExecOk false, w)) (λ _ w, (InitReturned, w)).

(** Plugin code that writes its calls into the world.  With
    [logging_activator] the module of [A] raises an [Exception] on
    import and every other plugin imports and initialises; with
    [exiting_activator] the [init_plugin] of [A] raises [SystemExit]. *)
Definition logging_activator : activator (list string) :=
  Activator (list string)
    (λ n w, if decide (n = "A") then (ExecRaised, w ++ ["exec " +:+ n])
            else (ExecOk true, w ++ ["exec " +:+ n]))
    (λ n w, (InitReturned, w ++ ["init " +:+ n])).

Definition exiting_activator : activator (list string) :=
  Activator (list string)
    (λ n w, (ExecOk true, w ++ ["exec " +:+ n]))
    (λ n w, if decide (n = "A") then (InitAborted, w ++ ["init " +:+ n])
            else (InitReturned, w ++ ["init " +:+ n])).

(** ** Further vocabulary *)

(** The character [c] occurs in [s]. *)
Fixpoint occurs (c : ascii) (s : string) : bool :=
  match s with
  | EmptyString => false
  | String c' rest => Ascii.eqb c' c || occurs c rest
  end.

(** The dependencies with which a directory entry enters the catalog,
    if it does. *)
Definition declared_deps (e : dir_entry) : option (list string) :=
  if is_dir e && has_metadata_json e && has_plugin_py e then
    match metadata e with
    | MetadataObject DepsAbsent => Some []
    | MetadataObject (DepsList deps) => Some deps
    | _ => None
    end
  else None.

(** Nothing that the traversal can reach from the enabled set is
    missing, disabled or on a cycle. *)
Definition resolvable (info : gmap string plugin) (pol : policy) : Prop :=
  ∀ y, reach info (λ r, r ∈ enabled_plugins pol) y →
    is_Some (info !! y) ∧ (y ∉ disabled_plugins pol) ∧ ¬ on_cycle info y.

(** Plugin code that imports and initialises in every world. *)
Definition always_succeeds {World : Type} (act : activator World) : Prop :=
  ∀ n w, (∃ w1, exec_module act n w = (ExecOk true, w1)) ∧
         (∃ w2, init_plugin act n w = (InitReturned, w2)).

(** The world after the code of plugin [n] has been run in world [w]:
    its module is executed and, when that gives a module with an
    [init_plugin], [init_plugin] is called. *)
Definition plugin_effect {World : Type} (act : activator World) (w : World) (n : string)
    : World :=
  match exec_module act n w with
  | (ExecOk true, w1) => snd (init_plugin act n w1)
  | (_, w1) => w1
  end.

(** Run in world [w], the code of plugin [n] raises an exception that
    does not derive from [Exception]. *)
Definition aborts {World : Type} (act : activator World) (n : string) (w : World) : bool :=
  match exec_module act n w with
  | (ExecAborted, _) => true
  | (ExecOk true, w1) =>
      match init_plugin act n w1 with
      | (InitAborted, _) => true
      | _ => false
      end
  | _ => false
  end.

(** Plugin code whose every failure is an [Exception]. *)
Definition never_aborts {World : Type} (act : activator World) : Prop :=
  ∀ n w, aborts act n w = false.

(** Packaging tools that find nothing installed, and tools that find
    everything installed. *)
Definition bare_provisioner : provisioner unit :=
  Provisioner unit (λ _, true) (λ _ _, DistMissing) (λ _ w, (false, w)).

Definition stocked_provisioner : provisioner unit :=
  Provisioner unit (λ _, true) (λ _ _, DistFound) (λ _ w, (true, w)).

Definition sample_requirements (n : string) : option (list string) :=
  if decide (n = "A") then Some ["# pinned"; ""; " requests>=2.0 "; "flask"]
  else None.

(** A listing with a malformed directory [M] (no plugin.py) and a plain
    file [notes]. *)
Definition mixed_listing : list dir_entry :=
  [plugin_dir "A" []; plugin_dir "B" ["A"];
   DirEntry "M" true true false (MetadataObject DepsAbsent);
   DirEntry "notes" false false false MetadataBadJson].

(** * Properties *)

(** ** Policy construction *)

Lemma foldl_add_entry_enabled (plugins : list config_entry) (pol : policy) (n : string) :
  n ∈ enabled_plugins (foldl add_entry pol plugins) ↔
  n ∈ enabled_plugins pol ∨ ∃ e, e ∈ plugins ∧ name e = n ∧ enabled e = true.
Proof.
  revert pol. induction plugins as [|e plugins IH]; intros pol; simpl.
  - split; [by left|]. intros [?|(e & He & _)]; [done|]. by apply elem_of_nil in He.
  - rewrite IH. unfold add_entry. destruct (enabled e) eqn:Hen; simpl.
    + rewrite elem_of_union, elem_of_singleton. split.
      * intros [[?| ->]|(e' & He' & ?)]; [by left| |].
        -- right. exists e. split; [left|done].
        -- right. exists e'. split; [by right|done].
      * intros [?|(e' & He' & Hn & Het)]; [by left; left|].
        apply elem_of_cons in He' as [ -> |He']; [by left; right|].
        right. by exists e'.
    + split.
      * intros [?|(e' & He' & ?)]; [by left|].
        right. exists e'. split; [by right|done].
      * intros [?|(e' & He' & Hn & Het)]; [by left|].
        apply elem_of_cons in He' as [ -> |He']; [congruence|].
        right. by exists e'.
Qed.

Lemma foldl_add_entry_disabled (plugins : list config_entry) (pol : policy) (n : string) :
  n ∈ disabled_plugins (foldl add_entry pol plugins) ↔
  n ∈ disabled_plugins pol ∨ ∃ e, e ∈ plugins ∧ name e = n ∧ enabled e = false.
Proof.
  revert pol. induction plugins as [|e plugins IH]; intros pol; simpl.
  - split; [by left|]. intros [?|(e & He & _)]; [done|]. by apply elem_of_nil in He.
  - rewrite IH. unfold add_entry. destruct (enabled e) eqn:Hen; simpl.
    + split.
      * intros [?|(e' & He' & ?)]; [by left|].
        right. exists e'. split; [by right|done].
      * intros [?|(e' & He' & Hn & Het)]; [by left|].
        apply elem_of_cons in He' as [ -> |He']; [congruence|].
        right. by exists e'.
    + rewrite elem_of_union, elem_of_singleton. split.
      * intros [[?| ->]|(e' & He' & ?)]; [by left| |].
        -- right. exists e. split; [left|done].
        -- right. exists e'. split; [by right|done].
      * intros [?|(e' & He' & Hn & Het)]; [by left; left|].
        apply elem_of_cons in He' as [ -> |He']; [by left; right|].
        right. by exists e'.
Qed.

Example env_list_ex : env_plugin_list " a, b ,, c" = ["a"; "b"; "c"].
Proof. reflexivity. Qed.

Lemma env_plugin_list_empty : env_plugin_list "" = [].
Proof. reflexivity. Qed.

(** C7: every name of the override list taken from ENABLED_PLUGINS is in
    the final enabled set and not in the final disabled set, whatever the
    base configuration says about it. *)
Theorem override_wins (plugins : list config_entry) (env_plugins n : string) :
  n ∈ env_plugin_list env_plugins →
  n ∈ enabled_plugins (build_policy plugins env_plugins) ∧
  n ∉ disabled_plugins (build_policy plugins env_plugins).
Proof.
  intros Hn. unfold build_policy, apply_env.
  destruct env_plugins as [|c rest]; simpl nonempty; cbv iota.
  - rewrite env_plugin_list_empty in Hn. by apply elem_of_nil in Hn.
  - simpl enabled_plugins. simpl disabled_plugins.
    assert (Hset : n ∈ (list_to_set (env_plugin_list (String c rest)) : gset string))
      by by apply elem_of_list_to_set.
    split.
    + apply elem_of_union. by right.
    + intros [_ Hout]%elem_of_difference. by apply Hout.
Qed.

Lemma override_wins_witness :
  "auth" ∈ env_plugin_list "db, auth" ∧
  "auth" ∈ enabled_plugins (build_policy [ConfigEntry "auth" false] "db, auth") ∧
  "auth" ∉ disabled_plugins (build_policy [ConfigEntry "auth" false] "db, auth").
Proof.
  assert (H : "auth" ∈ env_plugin_list "db, auth") by (vm_compute; set_solver).
  split; [exact H|].
  exact (override_wins [ConfigEntry "auth" false] "db, auth" "auth" H).
Defined.

(** C8 (as stated, refuted): with an enabled entry followed by a disabled
    entry for the same name, the name is not classified by the last entry
    alone; it sits in both sets. *)
Lemma last_write_wins_fails :
  ¬ last_write_wins [ConfigEntry "a" true; ConfigEntry "a" false] "a".
Proof.
  unfold last_write_wins. simpl last_mention.
  intros [_ Hne]. apply Hne. vm_compute. set_solver.
Qed.

(** C8 (amended): after the configuration loop a name is in the enabled
    set exactly when some entry lists it with a true flag, and in the
    disabled set exactly when some entry lists it with a false flag; a
    name listed both ways is in both sets, whatever the order. *)
Theorem populate_classifies (plugins : list config_entry) (n : string) :
  (n ∈ enabled_plugins (populate plugins) ↔
     ∃ e, e ∈ plugins ∧ name e = n ∧ enabled e = true) ∧
  (n ∈ disabled_plugins (populate plugins) ↔
     ∃ e, e ∈ plugins ∧ name e = n ∧ enabled e = false).
Proof.
  unfold populate. rewrite foldl_add_entry_enabled, foldl_add_entry_disabled.
  simpl. split; split; try (intros [H|H]; [set_solver|done]); by right.
Qed.

(** ** The traversal *)

Section ResolverFacts.
Variable info : gmap string plugin.
Variable disabled : gset string.
Variable roots : string → Prop.

Local Abbreviation Ok := (marks_ok info disabled roots).
Local Abbreviation Reach := (reach info roots).

Lemma reach_step (x y : string) : Reach x → dep info x y → Reach y.
Proof.
  intros (r & Hr & Hin & Hrx) Hxy. exists r. split_and!; [done..|].
  by eapply rtc_r.
Qed.

Lemma no_marks_ok : Ok no_marks.
Proof.
  split; simpl.
  - constructor.
  - intros x. split; [by intros ?%elem_of_nil | by intros ?%elem_of_empty].
  - by intros x ?%elem_of_empty.
  - intros i x p d Hi. by rewrite lookup_nil in Hi.
  - by intros x ?%elem_of_empty.
Qed.

(** *** The temporary marks are restored by every call that returns *)

Lemma visit_each_temp_marks (f : string → marks → res marks) (deps : list string) :
  (∀ d st st', f d st = Done st' → temp_marks st' = temp_marks st) →
  ∀ st st', visit_each f deps st = Done st' → temp_marks st' = temp_marks st.
Proof.
  intros Hf. induction deps as [|d deps IH]; intros st st' H; simpl in H.
  - by inversion H.
  - destruct (f d st) as [st1| |] eqn:Hd; simpl in H; try discriminate.
    rewrite (IH _ _ H). by eapply Hf.
Qed.

Lemma visit_temp_marks (fuel : nat) (n : string) (st st' : marks) :
  visit info disabled fuel n st = Done st' → temp_marks st' = temp_marks st.
Proof.
  revert n st st'. induction fuel as [|fuel IH]; intros n st st' H; simpl in H.
  - discriminate.
  - destruct (decide (n ∈ temp_marks st)) as [|Hnt]; [discriminate|].
    destruct (decide (n ∈ visited st)); [by inversion H|].
    destruct (info !! n) as [p|]; [|discriminate].
    destruct (decide (n ∈ disabled)); [discriminate|].
    destruct (visit_each _ _ _) as [st2| |] eqn:Hloop; simpl in H; try discriminate.
    inversion H; subst st'; clear H. simpl.
    rewrite (visit_each_temp_marks _ _ IH _ _ Hloop). simpl.
    apply set_eq. intros x.
    rewrite elem_of_difference, elem_of_union, elem_of_singleton.
    split; [by intros [[?| ->] ?]|]. intros Hx. split; [by left|]. by intros ->.
Qed.

(** *** The recursion ends within the budget *)

Lemma visit_each_fuel (f : string → marks → res marks) (deps : list string)
    (P : marks → Prop) :
  (∀ d st, P st → f d st ≠ OutOfFuel) →
  (∀ d st st', P st → f d st = Done st' → P st') →
  ∀ st, P st → visit_each f deps st ≠ OutOfFuel.
Proof.
  intros Hfuel Hkeep. induction deps as [|d deps IH]; intros st HP; simpl.
  - done.
  - destruct (f d st) as [st1| |] eqn:Hd; simpl.
    + apply IH. by eapply Hkeep.
    + done.
    + by apply Hfuel in Hd.
Qed.

Lemma visit_fuel (fuel : nat) (n : string) (st : marks) :
  size (dom info ∖ temp_marks st) < fuel →
  visit info disabled fuel n st ≠ OutOfFuel.
Proof.
  revert n st. induction fuel as [|fuel IH]; intros n st Hsize; simpl; [lia|].
  destruct (decide (n ∈ temp_marks st)) as [|Hnt]; [done|].
  destruct (decide (n ∈ visited st)); [done|].
  destruct (info !! n) as [p|] eqn:Hp; [|done].
  destruct (decide (n ∈ disabled)); [done|].
  set (st1 := {| loading_order := loading_order st; visited := visited st;
                 temp_marks := temp_marks st ∪ {[n]} |}).
  assert (Hst1 : size (dom info ∖ temp_marks st1) < fuel).
  { assert (dom info ∖ temp_marks st1 ⊂ dom info ∖ temp_marks st) as Hsub.
    { assert (n ∈ dom info) by (apply elem_of_dom; eauto).
      simpl. split.
      - intros x [Hx Hnx]%elem_of_difference. apply elem_of_difference.
        split; [done|]. intros ?. apply Hnx, elem_of_union. by left.
      - intros Hsub. assert (Hin : n ∈ dom info ∖ temp_marks st)
          by by apply elem_of_difference.
        apply Hsub, elem_of_difference in Hin as [_ Hout].
        apply Hout, elem_of_union. right. by apply elem_of_singleton. }
    apply subset_size in Hsub. lia. }
  pose proof (visit_each_fuel (visit info disabled fuel) (dependencies p)
    (λ s, temp_marks s = temp_marks st1)) as Hloop.
  destruct (visit_each _ _ st1) as [st2| |] eqn:Hres; simpl; [done..|].
  exfalso. eapply Hloop; [| |reflexivity|exact Hres].
  - intros d s Hs. apply IH. by rewrite Hs.
  - intros d s s' Hs Hd. rewrite <- Hs. by eapply visit_temp_marks.
Qed.

(** *** What a call of [visit] establishes *)

Lemma ok_grows (st st' : marks) (added : list string) (x : string) :
  Ok st → Ok st' → loading_order st' = loading_order st ++ added →
  x ∈ visited st → x ∈ visited st'.
Proof.
  intros Hst Hst' Hext Hx. apply (ok_visited _ _ _ _ Hst') . rewrite Hext.
  apply elem_of_app. left. by apply (ok_visited _ _ _ _ Hst).
Qed.

Lemma visit_each_spec (f : string → marks → res marks) (deps : list string) :
  (∀ d st, Ok st → Reach d → (∀ m, m ∈ temp_marks st → tc (dep info) m d) →
     match f d st with
     | Done st' => Ok st' ∧ temp_marks st' = temp_marks st ∧
         (∃ added, loading_order st' = loading_order st ++ added) ∧ d ∈ visited st'
     | Raised e => justified info disabled roots e
     | OutOfFuel => True
     end) →
  ∀ st, Ok st →
    (∀ d, d ∈ deps → Reach d ∧ ∀ m, m ∈ temp_marks st → tc (dep info) m d) →
    match visit_each f deps st with
    | Done st' => Ok st' ∧ temp_marks st' = temp_marks st ∧
        (∃ added, loading_order st' = loading_order st ++ added) ∧
        ∀ d, d ∈ deps → d ∈ visited st'
    | Raised e => justified info disabled roots e
    | OutOfFuel => True
    end.
Proof.
  intros Hf. induction deps as [|d deps IH]; intros st Hst Hdeps; simpl.
  - split_and!; [done..| |].
    + exists []. by rewrite app_nil_r.
    + by intros d ?%elem_of_nil.
  - destruct (Hdeps d) as [Hd Hpath]; [left|].
    specialize (Hf d st Hst Hd Hpath).
    destruct (f d st) as [st1|e|]; simpl; [|done..].
    destruct Hf as (Hst1 & Htemp1 & [added1 Hext1] & Hvis1).
    specialize (IH st1 Hst1).
    destruct (visit_each f deps st1) as [st'|e|]; [|by apply IH; intros; rewrite Htemp1; apply Hdeps; right..].
    destruct IH as (Hst' & Htemp' & [added' Hext'] & Hvis').
    { intros d' Hd'. rewrite Htemp1. apply Hdeps. by right. }
    split_and!; [done|congruence| |].
    + exists (added1 ++ added'). by rewrite Hext', Hext1, app_assoc.
    + intros d' [ -> |Hd']%elem_of_cons; [|by apply Hvis'].
      by apply (ok_grows st1 st' added').
Qed.

Lemma visit_spec (fuel : nat) (n : string) (st : marks) :
  Ok st → Reach n → (∀ m, m ∈ temp_marks st → tc (dep info) m n) →
  match visit info disabled fuel n st with
  | Done st' => Ok st' ∧ temp_marks st' = temp_marks st ∧
      (∃ added, loading_order st' = loading_order st ++ added) ∧ n ∈ visited st'
  | Raised e => justified info disabled roots e
  | OutOfFuel => True
  end.
Proof.
  revert n st. induction fuel as [|fuel IH]; intros n st Hst Hn Hpath; simpl; [done|].
  destruct (decide (n ∈ temp_marks st)) as [Hin|Hnt].
  { simpl. by split; [|apply Hpath]. }
  destruct (decide (n ∈ visited st)) as [Hvis|Hnv].
  { split_and!; [done..| |done]. exists []. by rewrite app_nil_r. }
  destruct (info !! n) as [p|] eqn:Hp; [|by simpl].
  destruct (decide (n ∈ disabled)) as [Hdis|Hnd].
  { simpl. split_and!; eauto. }
  set (st1 := {| loading_order := loading_order st; visited := visited st;
                 temp_marks := temp_marks st ∪ {[n]} |}).
  assert (Hst1 : Ok st1).
  { destruct Hst as [H1 H2 H3 H4 H5]. split; simpl; try done.
    intros x [Hx| ->%elem_of_singleton]%elem_of_union; [by apply H5|done]. }
  pose proof (visit_each_spec (visit info disabled fuel) (dependencies p) IH st1 Hst1) as Hloop.
  destruct (visit_each _ _ st1) as [st2|e|]; simpl; [|apply Hloop|done].
  - destruct Hloop as (Hst2 & Htemp2 & [added Hext] & Hdeps).
    { intros d Hd. assert (dep info n d) by (by exists p). split.
      - by eapply reach_step.
      - simpl. intros m [Hm| ->%elem_of_singleton]%elem_of_union.
        + eapply tc_r; [by apply Hpath|done].
        + by apply tc_once. }
    assert (Hfresh : n ∉ visited st2).
    { apply (ok_temp _ _ _ _ Hst2). rewrite Htemp2. simpl.
      apply elem_of_union. right. by apply elem_of_singleton. }
    destruct Hst2 as [H1 H2 H3 H4 H5].
    split_and!.
    + split; simpl.
      * apply NoDup_app. split_and!; [done| |apply NoDup_singleton].
        intros x Hx ->%list_elem_of_singleton. by apply Hfresh, H2.
      * intros x. rewrite elem_of_app, elem_of_union, list_elem_of_singleton,
          elem_of_singleton. by rewrite H2.
      * intros x [Hx| ->%elem_of_singleton]%elem_of_union; [by apply H3|].
        split_and!; eauto.
      * intros i x q d Hi Hq Hd.
        apply lookup_app_Some in Hi as [Hi|[Hlen Hi]].
        -- destruct (H4 i x q d Hi Hq Hd) as (j & Hj & Hjd).
           exists j. split; [done|]. by apply lookup_app_l_Some.
        -- apply list_lookup_singleton_Some in Hi as [Hi ->].
           assert (q = p) as -> by congruence.
           apply Hdeps, H2, list_elem_of_lookup in Hd as [j Hj].
           exists j. split; [|by apply lookup_app_l_Some].
           apply lookup_lt_Some in Hj. lia.
      * intros x [Hx Hne]%elem_of_difference [Hv|Hv]%elem_of_union; [by eapply H5|done].
    + simpl. rewrite Htemp2. simpl. apply set_eq. intros x.
      rewrite elem_of_difference, elem_of_union, elem_of_singleton.
      split; [by intros [[?| ->] ?]|]. intros Hx. split; [by left|]. by intros ->.
    + exists (added ++ [n]). simpl. rewrite Hext. simpl. by rewrite app_assoc.
    + simpl. apply elem_of_union. right. by apply elem_of_singleton.
  - intros d Hd. assert (dep info n d) by (by exists p). split.
    + by eapply reach_step.
    + simpl. intros m [Hm| ->%elem_of_singleton]%elem_of_union.
      * eapply tc_r; [by apply Hpath|done].
      * by apply tc_once.
Qed.

(** *** The loop over the enabled names *)

Lemma visit_enabled_fuel (fuel : nat) (names : list string) (st : marks) :
  temp_marks st = ∅ → size info < fuel →
  visit_enabled info disabled fuel names st ≠ OutOfFuel.
Proof.
  intros Htemp Hfuel. revert st Htemp.
  induction names as [|r names IH]; intros st Htemp; simpl; [done|].
  destruct (info !! r); [|by apply IH].
  destruct (decide (r ∈ visited st)); [by apply IH|].
  destruct (visit info disabled fuel r st) as [st'|e|] eqn:Hr; simpl.
  - apply IH. rewrite <- Htemp. by eapply visit_temp_marks.
  - done.
  - exfalso. eapply visit_fuel; [|exact Hr].
    rewrite Htemp, difference_empty_L, size_dom. done.
Qed.

Lemma visit_enabled_spec (fuel : nat) (names : list string) (st : marks) :
  Ok st → temp_marks st = ∅ → (∀ r, r ∈ names → roots r) →
  match visit_enabled info disabled fuel names st with
  | Done st' => Ok st' ∧ temp_marks st' = ∅ ∧
      (∃ added, loading_order st' = loading_order st ++ added) ∧
      ∀ r, r ∈ names → is_Some (info !! r) → r ∈ visited st'
  | Raised e => justified info disabled roots e
  | OutOfFuel => True
  end.
Proof.
  revert st. induction names as [|r names IH]; intros st Hst Htemp Hroots; simpl.
  - split_and!; [done..| |by intros r ?%elem_of_nil].
    exists []. by rewrite app_nil_r.
  - assert (Hrest : ∀ r', r' ∈ names → roots r') by (intros; apply Hroots; by right).
    destruct (info !! r) as [p|] eqn:Hp.
    + destruct (decide (r ∈ visited st)) as [Hvis|Hnv].
      * specialize (IH st Hst Htemp Hrest).
        destruct (visit_enabled _ _ _ names st) as [st'|e|]; [|done..].
        destruct IH as (Hst' & Htemp' & [added Hext] & Hall).
        split_and!; [done..|by exists added|].
        intros r' [ -> |Hr']%elem_of_cons Hin; [|by apply Hall].
        by apply (ok_grows st st' added).
      * assert (Hr : Reach r).
        { exists r. split_and!; [apply Hroots; left|by eauto|done]. }
        pose proof (visit_spec fuel r st Hst Hr) as Hv.
        destruct (visit info disabled fuel r st) as [st1|e|]; simpl;
          [|apply Hv; rewrite Htemp; by intros m ?%elem_of_empty|done].
        destruct Hv as (Hst1 & Htemp1 & [added1 Hext1] & Hvis1).
        { rewrite Htemp. by intros m ?%elem_of_empty. }
        specialize (IH st1 Hst1).
        destruct (visit_enabled _ _ _ names st1) as [st'|e|];
          [|by apply IH; [congruence|]|done].
        destruct IH as (Hst' & Htemp' & [added Hext] & Hall); [congruence|done|].
        split_and!; [done..| |].
        -- exists (added1 ++ added). by rewrite Hext, Hext1, app_assoc.
        -- intros r' [ -> |Hr']%elem_of_cons Hin; [|by apply Hall].
           by apply (ok_grows st1 st' added).
    + specialize (IH st Hst Htemp Hrest).
      destruct (visit_enabled _ _ _ names st) as [st'|e|]; [|done..].
      destruct IH as (Hst' & Htemp' & Hext & Hall).
      split_and!; [done..|].
      intros r' [ -> |Hr']%elem_of_cons Hin; [|by apply Hall].
      rewrite Hp in Hin. by destruct Hin.
Qed.

(** *** [resolve] *)

Lemma resolve_total (names : list string) :
  resolve info disabled names ≠ OutOfFuel.
Proof.
  unfold resolve.
  pose proof (visit_enabled_fuel (depth_budget info) names no_marks) as H.
  destruct (visit_enabled _ _ _ names no_marks); simpl; [done..|].
  exfalso. apply H; [done|unfold depth_budget; lia|done].
Qed.

Lemma resolve_raised (names : list string) (e : error) :
  (∀ r, r ∈ names → roots r) →
  resolve info disabled names = Raised e → justified info disabled roots e.
Proof.
  intros Hroots. unfold resolve.
  pose proof (visit_enabled_spec (depth_budget info) names no_marks no_marks_ok) as H.
  destruct (visit_enabled _ _ _ names no_marks); simpl; intros Heq; try discriminate.
  inversion Heq; subst. by apply H.
Qed.

Lemma resolve_done (names : list string) (order : list string) :
  (∀ r, r ∈ names → roots r) →
  resolve info disabled names = Done order →
  NoDup order ∧ deps_before info order ∧
  (∀ x, x ∈ order → is_Some (info !! x) ∧ (x ∉ disabled) ∧ Reach x) ∧
  (∀ r, r ∈ names → is_Some (info !! r) → r ∈ order).
Proof.
  intros Hroots. unfold resolve.
  pose proof (visit_enabled_spec (depth_budget info) names no_marks no_marks_ok) as H.
  destruct (visit_enabled _ _ _ names no_marks) as [st| |]; simpl; intros Heq;
    try discriminate.
  inversion Heq; subst. destruct H as ([H1 H2 H3 H4 H5] & _ & _ & Hall); [done..|].
  split_and!; [done..| |].
  - intros x Hx. by apply H3, H2.
  - intros r Hr Hin. by apply H2, Hall.
Qed.
End ResolverFacts.

(** ** Orders that put dependencies first *)

Lemma deps_before_closed (info : gmap string plugin) (order : list string) (x y : string) :
  deps_before info order → x ∈ order → rtc (dep info) x y → y ∈ order.
Proof.
  intros Hbefore Hx Hxy. induction Hxy as [x|x y z (p & Hp & Hd) _ IH]; [done|].
  apply IH. apply list_elem_of_lookup in Hx as [i Hi].
  destruct (Hbefore i x p y Hi Hp Hd) as (j & _ & Hj).
  apply list_elem_of_lookup. by exists j.
Qed.

Lemma deps_before_tc (info : gmap string plugin) (order : list string) (x y : string) (i : nat) :
  deps_before info order → order !! i = Some x → tc (dep info) x y →
  ∃ j, j < i ∧ order !! j = Some y.
Proof.
  intros Hbefore Hi Hxy. revert i Hi.
  induction Hxy as [x y (p & Hp & Hd)|x y z (p & Hp & Hd) _ IH]; intros i Hi.
  - by apply (Hbefore i x p y).
  - destruct (Hbefore i x p y Hi Hp Hd) as (j & Hj & Hjy).
    destruct (IH j Hjy) as (k & Hk & Hkz). exists k. split; [lia|done].
Qed.

Lemma deps_before_acyclic (info : gmap string plugin) (order : list string) (x : string) :
  NoDup order → deps_before info order → x ∈ order → ¬ on_cycle info x.
Proof.
  intros Hnd Hbefore [i Hi]%list_elem_of_lookup Hcycle.
  destruct (deps_before_tc info order x x i Hbefore Hi Hcycle) as (j & Hj & Hjx).
  assert (i = j) by (by eapply NoDup_lookup). lia.
Qed.

Lemma closure_reach (info : gmap string plugin) (names : gset string) (x : string) :
  closure info names x → is_Some (info !! x) → reach info (λ r, r ∈ names) x.
Proof.
  intros (r & Hr & Hrx) Hx. exists r. split_and!; [done| |done].
  destruct Hrx as [|r y z (p & Hp & _) _]; [done|by eauto].
Qed.

Lemma tc_dep_source (info : gmap string plugin) (x y : string) :
  tc (dep info) x y → is_Some (info !! x).
Proof. intros H. destruct H as [x y (p & Hp & _)|x y z (p & Hp & _) _]; by eauto. Qed.

Lemma reach_closure (info : gmap string plugin) (names : gset string) (x : string) :
  reach info (λ r, r ∈ names) x → closure info names x.
Proof. intros (r & Hr & _ & Hrx). by exists r. Qed.

(** ** Resolution against an enabled set *)

Lemma resolve_fails_on (info : gmap string plugin) (disabled enabled : gset string)
    (names : list string) (x : string) :
  (∀ r, r ∈ names ↔ r ∈ enabled) →
  reach info (λ r, r ∈ enabled) x →
  on_cycle info x ∨ info !! x = None ∨ x ∈ disabled →
  ∃ e, resolve info disabled names = Raised e ∧
       justified info disabled (λ r, r ∈ enabled) e.
Proof.
  intros Hnames (r & Hr & Hin & Hrx) Hbad.
  assert (Hroots : ∀ r, r ∈ names → r ∈ enabled) by (intros ?; apply Hnames).
  destruct (resolve info disabled names) as [order|e|] eqn:Hres.
  - exfalso.
    destruct (resolve_done info disabled _ names order Hroots Hres)
      as (Hnd & Hbefore & Hentry & Hall).
    assert (Hx : x ∈ order).
    { apply (deps_before_closed info order r x Hbefore); [|done].
      apply Hall; [by apply Hnames|done]. }
    destruct (Hentry x Hx) as ([p Hp] & Hnd' & _).
    destruct Hbad as [Hc|[Hn|Hd]]; [|congruence|done].
    by eapply deps_before_acyclic.
  - exists e. split; [done|]. by eapply resolve_raised.
  - by apply resolve_total in Hres.
Qed.

Lemma justified_cases (info : gmap string plugin) (disabled : gset string)
    (roots : string → Prop) (e : error) :
  justified info disabled roots e →
  ∃ y, reach info roots y ∧
    ((e = CircularDependency y ∧ on_cycle info y) ∨
     (e = UnknownPlugin y ∧ info !! y = None) ∨
     (e = RequiredButDisabled y ∧ is_Some (info !! y) ∧ y ∈ disabled)).
Proof.
  destruct e as [y|y|y]; simpl; intros H; exists y; (split; [apply H|]).
  - left. split; [done|apply H].
  - right; left. split; [done|apply H].
  - right; right. split; [done|apply H].
Qed.

(** ** Catalog construction *)

Lemma foldl_scan_entry_lookup (listing : list dir_entry) (cat : catalog) (x : string) :
  is_Some (plugin_info (foldl scan_entry cat listing) !! x) →
  is_Some (plugin_info cat !! x) ∨
  ∃ e, e ∈ listing ∧ entry_name e = x ∧ well_formed e.
Proof.
  revert cat. induction listing as [|e listing IH]; intros cat; simpl; [by left|].
  intros [H|(e' & He' & Hx & Hwf)]%IH.
  - unfold scan_entry in H.
    destruct (is_dir e) eqn:Hdir; simpl in H; [|by left].
    destruct (has_metadata_json e) eqn:Hmeta; simpl in H; [|by left].
    destruct (has_plugin_py e) eqn:Hpy; simpl in H; [|by left].
    destruct (metadata e) as [|[|deps|]] eqn:Hfile; simpl in H; try by left.
    + destruct (decide (entry_name e = x)) as [Heq|Hne].
      * right. exists e. split; [left|]. split; [done|]. unfold well_formed. eauto.
      * left. by rewrite lookup_insert_ne in H.
    + destruct (decide (entry_name e = x)) as [Heq|Hne].
      * right. exists e. split; [left|]. split; [done|].
        unfold well_formed. split_and!; eauto.
      * left. by rewrite lookup_insert_ne in H.
  - right. exists e'. split; [by right|done].
Qed.

Lemma build_catalog_lookup (listing : list dir_entry) (x : string) :
  is_Some (plugin_info (build_catalog listing) !! x) →
  ∃ e, e ∈ listing ∧ entry_name e = x ∧ well_formed e.
Proof.
  intros [H|H]%foldl_scan_entry_lookup; [|done].
  simpl in H. rewrite lookup_empty in H. by destruct H.
Qed.

Lemma foldl_scan_entry_unloaded (listing : list dir_entry) (cat : catalog) :
  (∀ z q, plugin_info cat !! z = Some q → is_loaded q = false) →
  ∀ z q, plugin_info (foldl scan_entry cat listing) !! z = Some q → is_loaded q = false.
Proof.
  revert cat. induction listing as [|d listing IH]; intros cat Hcat; simpl; [done|].
  apply IH. unfold scan_entry.
  destruct (is_dir d); simpl; [|done].
  destruct (has_metadata_json d); simpl; [|done].
  destruct (has_plugin_py d); simpl; [|done].
  destruct (metadata d) as [|[|deps|]]; simpl; try done;
    intros z q [[_ <-]|[_ Hq]]%lookup_insert_Some; by eauto.
Qed.

(** A freshly built catalog marks no plugin loaded. *)
Lemma build_catalog_unloaded (listing : list dir_entry) (y : string) :
  ¬ loaded_in (plugin_info (build_catalog listing)) y.
Proof.
  intros (p & Hp & Hl).
  assert (is_loaded p = false); [|congruence].
  apply (foldl_scan_entry_unloaded listing
           {| plugin_info := ∅; all_plugins_in_directory := ∅ |}) with y; [|done].
  intros z q. simpl. by rewrite lookup_empty.
Qed.

(** ** The activation loop *)

Section ActivationFacts.
Context {World : Type}.
Variable act : activator World.

Lemma activate_one_spec (a : act_state World) (n : string) :
  is_Some (act_info a !! n) →
  ∃ a', (activate_one act a n = Completed a' ∧ aborts act n (world a) = false ∨
         activate_one act a n = Escaped BaseExceptionEscapes a' ∧
         aborts act n (world a) = true) ∧
    attempted a' = attempted a ++ [n] ∧
    world a' = plugin_effect act (world a) n ∧
    dom (act_info a') = dom (act_info a) ∧
    ∀ y, loaded_in (act_info a) y → loaded_in (act_info a') y.
Proof.
  intros [p Hp]. unfold activate_one, aborts, plugin_effect. rewrite Hp.
  destruct (exec_module act n (world a)) as [[|[|]|] w1]; [by eauto 10| |by eauto 10..].
  destruct (init_plugin act n w1) as [[| |] w2]; [|by eauto 10..].
  eexists. split; [by left|]. simpl. split_and!; [done..| |].
  - rewrite dom_insert_L. assert (n ∈ dom (act_info a)) by (apply elem_of_dom; eauto).
    apply set_eq. intros y. rewrite elem_of_union, elem_of_singleton.
    split; [by intros [ -> |?]|by right].
  - intros y (q & Hq & Hl). unfold loaded_in.
    destruct (decide (n = y)) as [ -> |Hne].
    + rewrite lookup_insert_eq. by eauto.
    + rewrite lookup_insert_ne; by eauto.
Qed.

Lemma activate_all_spec (order : list string) (a : act_state World) :
  (∀ x, x ∈ order → x ∈ dom (act_info a)) →
  (∃ a', activate_all act order a = Completed a' ∧
     attempted a' = attempted a ++ order ∧
     world a' = foldl (plugin_effect act) (world a) order ∧
     dom (act_info a') = dom (act_info a) ∧
     (∀ y, loaded_in (act_info a) y → loaded_in (act_info a') y) ∧
     (∀ l1 x l2, order = l1 ++ x :: l2 →
        aborts act x (foldl (plugin_effect act) (world a) l1) = false)) ∨
  (∃ a' l1 x l2, activate_all act order a = Escaped BaseExceptionEscapes a' ∧
     order = l1 ++ x :: l2 ∧
     attempted a' = attempted a ++ l1 ++ [x] ∧
     world a' = foldl (plugin_effect act) (world a) (l1 ++ [x]) ∧
     aborts act x (foldl (plugin_effect act) (world a) l1) = true ∧
     dom (act_info a') = dom (act_info a) ∧
     (∀ y, loaded_in (act_info a) y → loaded_in (act_info a') y)).
Proof.
  revert a. induction order as [|n order IH]; intros a Hin; simpl.
  - left. exists a. split_and!; [done|by rewrite app_nil_r|done..|].
    intros l1 x l2 Heq. by destruct l1.
  - destruct (activate_one_spec a n) as (a1 & Hone & Htried & Hworld & Hdom & Hmono).
    { apply elem_of_dom, Hin. left. }
    destruct Hone as [[Hone Hok]|[Hone Hbad]]; rewrite Hone.
    + destruct (IH a1) as [(a' & Hall & Ht & Hw & Hd & Hm & Hnone)
                          |(a' & l1 & x & l2 & Hall & Heq & Ht & Hw & Hb & Hd & Hm)].
      { intros x Hx. rewrite Hdom. apply Hin. by right. }
      * left. exists a'. rewrite Hworld in Hw, Hnone.
        split_and!; [done| |done|congruence|by eauto|].
        -- rewrite Ht, Htried, <- app_assoc. done.
        -- intros l1 x l2 Heq. destruct l1 as [|n' l1]; simpl in Heq.
           ++ by inversion Heq; subst.
           ++ inversion Heq; subst. simpl. by apply (Hnone l1 x l2).
      * right. exists a', (n :: l1), x, l2. rewrite Hworld in Hw, Hb.
        split_and!; [done|by rewrite Heq| |done..|congruence|by eauto].
        rewrite Ht, Htried, <- !app_assoc. done.
    + right. exists a1, [], n, order. simpl. by split_and!.
Qed.

Lemma activate_all_completes (order : list string) (a : act_state World) :
  (∀ x, x ∈ order → x ∈ dom (act_info a)) →
  (∀ l1 x l2, order = l1 ++ x :: l2 →
     aborts act x (foldl (plugin_effect act) (world a) l1) = false) →
  ∃ a', activate_all act order a = Completed a' ∧
    attempted a' = attempted a ++ order ∧
    world a' = foldl (plugin_effect act) (world a) order ∧
    dom (act_info a') = dom (act_info a) ∧
    ∀ y, loaded_in (act_info a) y → loaded_in (act_info a') y.
Proof.
  intros Hin Hnone.
  destruct (activate_all_spec order a Hin)
    as [(a' & Hall & Ht & Hw & Hd & Hm & _)|(a' & l1 & x & l2 & _ & Heq & _ & _ & Hb & _)].
  - by exists a'.
  - by rewrite (Hnone l1 x l2 Heq) in Hb.
Qed.

Lemma activate_one_origin (a a' : act_state World) (n y : string) :
  activate_one act a n = Completed a' →
  loaded_in (act_info a') y → loaded_in (act_info a) y ∨ y = n.
Proof.
  unfold activate_one. destruct (act_info a !! n) as [p|] eqn:Hp; [|done].
  destruct (exec_module act n (world a)) as [[|[|]|] w1]; [| | |done].
  - intros [= <-]. by left.
  - destruct (init_plugin act n w1) as [[| |] w2]; [| |done]; intros [= <-]; simpl;
      [|by left].
    intros (q & Hq & Hl). destruct (decide (n = y)) as [ -> |Hne]; [by right|].
    left. exists q. by rewrite lookup_insert_ne in Hq.
  - intros [= <-]. by left.
Qed.

Lemma activate_all_origin (order : list string) (a a' : act_state World) (y : string) :
  activate_all act order a = Completed a' →
  loaded_in (act_info a') y → loaded_in (act_info a) y ∨ y ∈ order.
Proof.
  revert a. induction order as [|n order IH]; intros a; simpl.
  - intros [= <-]. by left.
  - destruct (activate_one act a n) as [a1|why a1] eqn:Hone; [|done].
    intros Hall Hy. destruct (IH a1 Hall Hy) as [Hy1|Hin]; [|by right; right].
    destruct (activate_one_origin a a1 n y Hone Hy1) as [?| ->]; [by left|right; left].
Qed.

Lemma activate_all_app (l1 l2 : list string) (a : act_state World) :
  activate_all act (l1 ++ l2) a =
  match activate_all act l1 a with
  | Completed mid => activate_all act l2 mid
  | Escaped why a' => Escaped why a'
  end.
Proof.
  revert a. induction l1 as [|n l1 IH]; intros a; simpl; [done|].
  destruct (activate_one act a n); [apply IH|done].
Qed.
Lemma activate_all_escapes (l1 l2 : list string) (x : string) (a : act_state World) :
  (∀ y, y ∈ l1 ++ x :: l2 → y ∈ dom (act_info a)) →
  (∀ l1a y l1b, l1 = l1a ++ y :: l1b →
     aborts act y (foldl (plugin_effect act) (world a) l1a) = false) →
  aborts act x (foldl (plugin_effect act) (world a) l1) = true →
  ∃ a', activate_all act (l1 ++ x :: l2) a = Escaped BaseExceptionEscapes a' ∧
    attempted a' = attempted a ++ l1 ++ [x] ∧
    world a' = foldl (plugin_effect act) (world a) (l1 ++ [x]).
Proof.
  intros Hin Hnone Hbad. rewrite activate_all_app.
  destruct (activate_all_completes l1 a) as (mid & -> & Hmt & Hmw & Hmd & _).
  { intros y Hy. apply Hin, elem_of_app. by left. }
  { done. }
  simpl. destruct (activate_one_spec mid x) as (a1 & Hone & Htried & Hworld & _).
  { apply elem_of_dom. rewrite Hmd. apply Hin, elem_of_app. right. left. }
  rewrite Hmw in Hone, Hworld.
  destruct Hone as [[_ Hok]|[-> _]]; [congruence|].
  exists a1. split_and!; [done| |].
  - by rewrite Htried, Hmt, <- app_assoc.
  - rewrite foldl_app. simpl. done.
Qed.

End ActivationFacts.

Lemma visit_enabled_filter (info : gmap string plugin) (disabled : gset string)
    (fuel : nat) (names : list string) (st : marks) :
  visit_enabled info disabled fuel names st =
  visit_enabled info disabled fuel (filter (λ r, is_Some (info !! r)) names) st.
Proof.
  revert st. induction names as [|r names IH]; intros st; [done|].
  destruct (info !! r) as [p|] eqn:Hp.
  - rewrite filter_cons_True by (by rewrite Hp). simpl. rewrite Hp.
    destruct (decide (r ∈ visited st)); [apply IH|].
    destruct (visit info disabled fuel r st); simpl; [apply IH|done..].
  - rewrite filter_cons_False by (rewrite Hp; by intros []). simpl. rewrite Hp. apply IH.
Qed.

(** ** [load_plugins] *)

Section LoadFacts.
Context {World : Type}.
Variable set_iter : gset string → list string.
Variable act : activator World.
Variable listing : list dir_entry.
Variable plugins : list config_entry.
Variable env_plugins : string.
Variable w : World.

(** Iterating over a set meets exactly its members. *)
Hypothesis set_iter_spec : ∀ (s : gset string) (x : string), x ∈ set_iter s ↔ x ∈ s.

Local Abbreviation info := (plugin_info (build_catalog listing)).
Local Abbreviation on := (enabled_plugins (build_policy plugins env_plugins)).
Local Abbreviation off := (disabled_plugins (build_policy plugins env_plugins)).
Local Abbreviation resolution :=
  (resolve (plugin_info (build_catalog listing))
     (disabled_plugins (build_policy plugins env_plugins))
     (set_iter (enabled_plugins (build_policy plugins env_plugins)))).
Local Abbreviation the_run :=
  (load_plugins set_iter act (Some listing) (ConfigData plugins) env_plugins w).
Local Abbreviation start := (ActState (plugin_info (build_catalog listing)) w []).

Lemma load_plugins_raised (e : error) :
  resolution = Raised e → the_run = Run (ReturnNone (ResolutionFailed e)) start.
Proof. intros H. unfold load_plugins. by rewrite H. Qed.

Lemma load_plugins_done (order : list string) :
  resolution = Done order →
  (∀ x, x ∈ order → is_Some (info !! x)) ∧
  ((∃ a, activate_all act order start = Completed a ∧
      the_run = Run (ReturnSet (list_to_set order)) a ∧
      attempted a = order ∧
      world a = foldl (plugin_effect act) w order ∧
      dom (act_info a) = dom info ∧
      (∀ l1 x l2, order = l1 ++ x :: l2 →
         aborts act x (foldl (plugin_effect act) w l1) = false)) ∨
   (∃ a l1 x l2, activate_all act order start = Escaped BaseExceptionEscapes a ∧
      the_run = Run UncaughtBaseException a ∧
      order = l1 ++ x :: l2 ∧
      attempted a = l1 ++ [x] ∧
      world a = foldl (plugin_effect act) w (l1 ++ [x]) ∧
      aborts act x (foldl (plugin_effect act) w l1) = true)).
Proof.
  intros H.
  destruct (resolve_done info off (λ _, True) _ order (λ _ _, I) H)
    as (_ & _ & Hentry & _).
  assert (Hin : ∀ x, x ∈ order → is_Some (info !! x)) by (intros x Hx; by apply Hentry).
  split; [done|]. unfold load_plugins. rewrite H.
  destruct (activate_all_spec act order start)
    as [(a & Hall & Ht & Hw & Hd & _ & Hnone)|(a & l1 & x & l2 & Hall & Heq & Ht & Hw & Hb & _)].
  { intros x Hx. apply elem_of_dom. by apply Hin. }
  - left. exists a. rewrite Hall. by split_and!.
  - right. exists a, l1, x, l2. rewrite Hall. by split_and!.
Qed.

Lemma load_plugins_aborts (x : string) :
  reach info (λ r, r ∈ on) x →
  on_cycle info x ∨ info !! x = None ∨ x ∈ off →
  ∃ e, the_run = Run (ReturnNone (ResolutionFailed e)) start ∧
       justified info off (λ r, r ∈ on) e.
Proof.
  intros Hx Hbad.
  destruct (resolve_fails_on info off on (set_iter on) x (set_iter_spec on) Hx Hbad)
    as (e & He & Hj).
  exists e. split; [by apply load_plugins_raised|done].
Qed.

(** C1: when resolution completes, the loading order has no duplicate,
    holds exactly the names of the transitive dependency closure of the
    enabled set that have a descriptor in the catalog, and places every
    declared dependency of the plugin at position [i] at a position
    below [i]. *)
Theorem loading_order_correct (order : list string) :
  resolution = Done order →
  NoDup order ∧
  (∀ x, x ∈ order ↔ closure info on x ∧ is_Some (info !! x)) ∧
  deps_before info order.
Proof.
  intros H.
  destruct (resolve_done info off (λ r, r ∈ on) (set_iter on) order)
    as (Hnd & Hbefore & Hentry & Hall);
    [by intros r ?%set_iter_spec|done|].
  split_and!; [done| |done].
  intros x. split.
  - intros Hx. destruct (Hentry x Hx) as (Hin & _ & Hreach).
    split; [by apply reach_closure|done].
  - intros [Hc Hin]. destruct (closure_reach _ _ _ Hc Hin) as (r & Hr & Hrin & Hrx).
    apply (deps_before_closed info order r x Hbefore); [|done].
    apply Hall; [by apply set_iter_spec|done].
Qed.

(** C3 (amended): when a dependency cycle is reachable from the enabled
    set, resolution fails, [load_plugins] returns [None] and activates
    nothing; the error names a reachable plugin that lies on a cycle,
    has no descriptor, or is disabled, and it is a circular-dependency
    error whenever every reachable name has a descriptor and none is
    disabled. *)
Theorem cycle_aborts (x : string) :
  closure info on x → on_cycle info x →
  ∃ e, the_run = Run (ReturnNone (ResolutionFailed e)) start ∧
    justified info off (λ r, r ∈ on) e ∧
    ((∀ y, reach info (λ r, r ∈ on) y → is_Some (info !! y) ∧ y ∉ off) →
     ∃ y, e = CircularDependency y ∧ on_cycle info y).
Proof.
  intros Hc Hcycle.
  assert (Hin : is_Some (info !! x)).
  { by apply tc_dep_source in Hcycle. }
  destruct (load_plugins_aborts x) as (e & Hrun & Hj);
    [by apply closure_reach|by left|].
  exists e. split_and!; [done..|]. intros Hclean.
  destruct (justified_cases _ _ _ _ Hj) as (y & Hy & [[-> ?]|[[-> Hn]|[-> [_ Hd]]]]).
  - by exists y.
  - destruct (Hclean y Hy) as [[p Hp] _]. congruence.
  - by destruct (Hclean y Hy) as [_ Hoff].
Qed.

(** C4 (amended): when a name without a descriptor is a dependency,
    direct or transitive, of an enabled plugin, resolution fails,
    [load_plugins] returns [None] and activates nothing; the error names
    a reachable plugin that has no descriptor, is disabled or lies on a
    cycle, and it is an unknown-plugin error whenever no reachable name
    is disabled or on a cycle.  Enabled names without a descriptor are
    skipped: resolution runs as if they were not enabled. *)
Theorem missing_dependency_aborts :
  (∀ r x, r ∈ on → tc (dep info) r x → info !! x = None →
     ∃ e, the_run = Run (ReturnNone (ResolutionFailed e)) start ∧
       justified info off (λ r, r ∈ on) e ∧
       ((∀ y, reach info (λ r, r ∈ on) y → (y ∉ off) ∧ ¬ on_cycle info y) →
        ∃ y, e = UnknownPlugin y ∧ info !! y = None ∧ reach info (λ r, r ∈ on) y)) ∧
  resolution = resolve info off (filter (λ n, is_Some (info !! n)) (set_iter on)).
Proof.
  split.
  - intros r x Hr Hrx Hx.
    assert (Hin : is_Some (info !! r)).
    { by apply tc_dep_source in Hrx. }
    destruct (load_plugins_aborts x) as (e & Hrun & Hj).
    { exists r. split_and!; [done..|]. by apply tc_rtc. }
    { by right; left. }
    exists e. split_and!; [done..|]. intros Hclean.
    destruct (justified_cases _ _ _ _ Hj) as (y & Hy & [[-> Hc]|[[-> Hn]|[-> [_ Hd]]]]).
    + by destruct (Hclean y Hy) as [_ Hnc].
    + by exists y.
    + by destruct (Hclean y Hy) as [Hoff _].
  - unfold resolve. by rewrite visit_enabled_filter.
Qed.

(** C5 (amended): when a disabled name that has a descriptor is in the
    dependency closure of the enabled set, resolution fails,
    [load_plugins] returns [None] and activates nothing; the error names
    a reachable plugin that is disabled, has no descriptor or lies on a
    cycle, and it is a required-but-disabled error whenever every
    reachable name has a descriptor and none lies on a cycle. *)
Theorem disabled_requirement_aborts (x : string) :
  closure info on x → is_Some (info !! x) → x ∈ off →
  ∃ e, the_run = Run (ReturnNone (ResolutionFailed e)) start ∧
    justified info off (λ r, r ∈ on) e ∧
    ((∀ y, reach info (λ r, r ∈ on) y → is_Some (info !! y) ∧ ¬ on_cycle info y) →
     ∃ y, e = RequiredButDisabled y ∧ y ∈ off ∧ reach info (λ r, r ∈ on) y).
Proof.
  intros Hc Hin Hoff.
  destruct (load_plugins_aborts x) as (e & Hrun & Hj);
    [by apply closure_reach|by right; right|].
  exists e. split_and!; [done..|]. intros Hclean.
  destruct (justified_cases _ _ _ _ Hj) as (y & Hy & [[-> Hc']|[[-> Hn]|[-> [_ Hd]]]]).
  - by destruct (Hclean y Hy) as [_ Hnc].
  - destruct (Hclean y Hy) as [[p Hp] _]. congruence.
  - by exists y.
Qed.

(** C6: whenever resolution raises, whatever the error, [load_plugins]
    returns [None]: no order and no set reach the caller, no plugin code
    has run, and no plugin is marked loaded. *)
Theorem resolution_all_or_nothing (e : error) :
  resolution = Raised e →
  result the_run = ReturnNone (ResolutionFailed e) ∧
  attempted (final the_run) = [] ∧
  world (final the_run) = w ∧
  (∀ y, ¬ loaded_in (act_info (final the_run)) y).
Proof.
  intros H. rewrite (load_plugins_raised e H). simpl. split_and!; [done..|].
  apply build_catalog_unloaded.
Qed.

(** C9 (amended): once resolution has given an order, a plugin that
    fails with an exception deriving from [Exception] (import error,
    exception in [init_plugin]) or that has no [init_plugin] stops
    nothing.  When no plugin raises an exception outside [Exception] at
    its turn, the code of every plugin of the order is run, in order,
    each in the world its predecessors left, the set of the whole order
    is returned, and a plugin marked loaded after any prefix of the order
    is still marked loaded at the end and is a member of the returned
    set.  The first plugin that raises an exception outside [Exception]
    ends the loop: the exception escapes [load_plugins] and no later
    plugin is attempted. *)
Theorem activation_never_aborts (order : list string) :
  resolution = Done order →
  ((∀ l1 x l2, order = l1 ++ x :: l2 →
      aborts act x (foldl (plugin_effect act) w l1) = false) →
   ∃ a, the_run = Run (ReturnSet (list_to_set order)) a ∧
     attempted a = order ∧
     world a = foldl (plugin_effect act) w order ∧
     ∀ l1 l2, order = l1 ++ l2 →
       ∃ mid, activate_all act l1 start = Completed mid ∧
         attempted mid = l1 ∧
         world mid = foldl (plugin_effect act) w l1 ∧
         activate_all act l2 mid = Completed a ∧
         ∀ y, loaded_in (act_info mid) y →
           loaded_in (act_info a) y ∧ y ∈ (list_to_set order : gset string)) ∧
  (∀ l1 x l2, order = l1 ++ x :: l2 →
     (∀ l1a y l1b, l1 = l1a ++ y :: l1b →
        aborts act y (foldl (plugin_effect act) w l1a) = false) →
     aborts act x (foldl (plugin_effect act) w l1) = true →
     ∃ a, the_run = Run UncaughtBaseException a ∧
       attempted a = l1 ++ [x] ∧
       world a = foldl (plugin_effect act) w (l1 ++ [x])).
Proof.
  intros H. split.
  - intros Hnone.
    destruct (load_plugins_done order H)
      as (Hin & [(a & Hall & Hrun & Htried & Hw & Hdom & _)
                |(a & l1 & x & l2 & _ & _ & Heq & _ & _ & Hb)]);
      [|by rewrite (Hnone l1 x l2 Heq) in Hb].
    exists a. split_and!; [done..|]. intros l1 l2 ->.
    rewrite activate_all_app in Hall.
    destruct (activate_all_completes act l1 start) as (mid & Hmid & Hmt & Hmw & Hmd & _).
    { intros x Hx. apply elem_of_dom, Hin, elem_of_app. by left. }
    { intros l1' x l2' ->. apply (Hnone l1' x (l2' ++ l2)). by rewrite <- app_assoc. }
    rewrite Hmid in Hall. exists mid. split_and!; [done..|].
    intros y Hy. split.
    + destruct (activate_all_spec act l2 mid)
        as [(a' & Ha' & _ & _ & _ & Hmono & _)|(a' & ? & ? & ? & Ha' & _)].
      { intros x Hx. rewrite Hmd. apply elem_of_dom, Hin, elem_of_app. by right. }
      * assert (a' = a) as -> by congruence. by apply Hmono.
      * congruence.
    + destruct (activate_all_origin act l1 start mid y Hmid Hy) as [Hstart|Hl1].
      * by apply build_catalog_unloaded in Hstart.
      * apply elem_of_list_to_set, elem_of_app. by left.
  - intros l1 x l2 -> Hnone Hbad.
    destruct (load_plugins_done _ H) as (Hin & _).
    destruct (activate_all_escapes act l1 l2 x start) as (a & Hall & Ht & Hw); [|done..|].
    { intros y Hy. by apply elem_of_dom, Hin. }
    exists a. unfold load_plugins. rewrite H, Hall. by split_and!.
Qed.
End LoadFacts.

(** C10: every name of the set returned by [load_plugins] has a
    descriptor in the catalog built from the plugin directory, so it is
    the name of a directory entry that is a directory, holds both files,
    and whose metadata is an object with a list of dependencies or none
    declared. *)
Theorem returned_names_in_catalog {World : Type} (set_iter : gset string → list string)
    (act : activator World) (plugin_directory : option (list dir_entry))
    (config : config_file) (env_plugins : string) (w : World)
    (s : gset string) (x : string) :
  result (load_plugins set_iter act plugin_directory config env_plugins w) = ReturnSet s →
  x ∈ s →
  ∃ listing, plugin_directory = Some listing ∧
    is_Some (plugin_info (build_catalog listing) !! x) ∧
    ∃ e, e ∈ listing ∧ entry_name e = x ∧ well_formed e.
Proof.
  intros Hres Hx.
  destruct plugin_directory as [listing|]; [|done].
  destruct config as [| |plugins]; [done..|].
  exists listing. split; [done|].
  assert (Hin : is_Some (plugin_info (build_catalog listing) !! x)).
  { destruct (resolve (plugin_info (build_catalog listing))
                (disabled_plugins (build_policy plugins env_plugins))
                (set_iter (enabled_plugins (build_policy plugins env_plugins))))
      as [order|e|] eqn:Hr.
    - destruct (load_plugins_done set_iter act listing plugins env_plugins w order Hr)
        as (Hin & [(a & _ & Hrun & _)|(a & ? & ? & ? & _ & Hrun & _)]);
        rewrite Hrun in Hres; simpl in Hres; [|done].
      inversion Hres; subst s.
      apply elem_of_list_to_set in Hx. by apply Hin.
    - by rewrite (load_plugins_raised set_iter act listing plugins env_plugins w e Hr) in Hres.
    - by apply resolve_total in Hr. }
  split; [done|]. by apply build_catalog_lookup.
Qed.

(** ** The properties on sample configurations *)

Lemma elements_iter (s : gset string) (x : string) : x ∈ elements s ↔ x ∈ s.
Proof. apply elem_of_elements. Qed.

Lemma sample_dep (listing : list dir_entry) (a b : string) (deps : list string) :
  plugin_info (build_catalog listing) !! a = Some (new_plugin deps) →
  b ∈ deps → dep (plugin_info (build_catalog listing)) a b.
Proof. intros Ha Hb. by exists (new_plugin deps). Qed.

Lemma loading_order_correct_witness :
  NoDup ["A"; "B"] ∧
  (∀ x, x ∈ ["A"; "B"] ↔
     closure (plugin_info (build_catalog sample_listing))
       (enabled_plugins (build_policy [ConfigEntry "B" true] "")) x ∧
     is_Some (plugin_info (build_catalog sample_listing) !! x)) ∧
  deps_before (plugin_info (build_catalog sample_listing)) ["A"; "B"].
Proof.
  apply (loading_order_correct elements sample_listing [ConfigEntry "B" true] ""
           elements_iter ["A"; "B"]).
  vm_compute. reflexivity.
Defined.

(** C2 (the code at a failing input): a plugin whose module fails to
    import, and a plugin without [init_plugin], are attempted, stay
    unloaded, and are members of the returned set all the same. *)
Theorem failed_plugin_in_returned_set :
  let failed := load_plugins elements failing_activator (Some [plugin_dir "A" []])
                  (ConfigData [ConfigEntry "A" true]) "" () in
  let hookless := load_plugins elements hookless_activator (Some [plugin_dir "A" []])
                    (ConfigData [ConfigEntry "A" true]) "" () in
  (result failed = ReturnSet {["A"]} ∧ attempted (final failed) = ["A"] ∧
   ¬ loaded_in (act_info (final failed)) "A") ∧
  (result hookless = ReturnSet {["A"]} ∧ attempted (final hookless) = ["A"] ∧
   ¬ loaded_in (act_info (final hookless)) "A").
Proof.
  assert (Hinfo :
    act_info (final (load_plugins elements failing_activator (Some [plugin_dir "A" []])
      (ConfigData [ConfigEntry "A" true]) "" ())) !! "A" = Some (new_plugin []))
    by (vm_compute; reflexivity).
  assert (Hinfo' :
    act_info (final (load_plugins elements hookless_activator (Some [plugin_dir "A" []])
      (ConfigData [ConfigEntry "A" true]) "" ())) !! "A" = Some (new_plugin []))
    by (vm_compute; reflexivity).
  cbv zeta. split; (split_and!; [by vm_compute..|]); intros (p & Hp & Hl).
  - rewrite Hinfo in Hp. inversion Hp; subst p. discriminate.
  - rewrite Hinfo' in Hp. inversion Hp; subst p. discriminate.
Qed.

(** C3 (as stated, refuted): a self-cycle on [A] is reachable from the
    enabled set, yet the error is not a circular-dependency error: the
    traversal meets the disabled dependency [D] first. *)
Lemma cycle_reported_as_disabled :
  closure (plugin_info (build_catalog masked_cycle_listing))
    (enabled_plugins (build_policy [ConfigEntry "A" true; ConfigEntry "D" false] "")) "A" ∧
  on_cycle (plugin_info (build_catalog masked_cycle_listing)) "A" ∧
  result (load_plugins elements working_activator (Some masked_cycle_listing)
            (ConfigData [ConfigEntry "A" true; ConfigEntry "D" false]) "" ())
  = ReturnNone (ResolutionFailed (RequiredButDisabled "D")).
Proof.
  split_and!.
  - exists "A". split; [vm_compute; set_solver|done].
  - apply tc_once, (sample_dep masked_cycle_listing "A" "A" ["D"; "A"]);
      [vm_compute; reflexivity|]. right. left.
  - vm_compute. reflexivity.
Qed.

Lemma cycle_aborts_witness :
  ∃ e, load_plugins elements working_activator (Some cyclic_listing)
         (ConfigData [ConfigEntry "A" true]) "" ()
       = Run (ReturnNone (ResolutionFailed e))
           (ActState (plugin_info (build_catalog cyclic_listing)) () []).
Proof.
  destruct (cycle_aborts elements working_activator cyclic_listing
              [ConfigEntry "A" true] "" () elements_iter "A") as (e & He & _).
  - exists "A". split; [vm_compute; set_solver|done].
  - eapply tc_l; [|apply tc_once].
    + apply (sample_dep cyclic_listing "A" "B" ["B"]); [vm_compute; reflexivity|left].
    + apply (sample_dep cyclic_listing "B" "A" ["A"]); [vm_compute; reflexivity|left].
  - by exists e.
Defined.

(** C4 (as stated, refuted): [ghost] is enabled and has no descriptor,
    yet resolution completes without it and the plugins of the other
    enabled name are activated. *)
Lemma missing_enabled_name_is_skipped :
  "ghost" ∈ enabled_plugins (build_policy [ConfigEntry "ghost" true; ConfigEntry "B" true] "") ∧
  plugin_info (build_catalog sample_listing) !! "ghost" = None ∧
  load_plugins elements working_activator (Some sample_listing)
    (ConfigData [ConfigEntry "ghost" true; ConfigEntry "B" true]) "" ()
  = Run (ReturnSet {["A"; "B"]})
      (ActState (<["A" := Plugin [] true]> (<["B" := Plugin ["A"] true]>
                   (plugin_info (build_catalog sample_listing)))) () ["A"; "B"]).
Proof.
  split_and!.
  - vm_compute. set_solver.
  - vm_compute. reflexivity.
  - vm_compute. reflexivity.
Qed.

Lemma missing_dependency_aborts_witness :
  ∃ e, load_plugins elements working_activator (Some sample_listing)
         (ConfigData [ConfigEntry "C" true]) "" ()
       = Run (ReturnNone (ResolutionFailed e))
           (ActState (plugin_info (build_catalog sample_listing)) () []).
Proof.
  destruct (missing_dependency_aborts elements working_activator sample_listing
              [ConfigEntry "C" true] "" () elements_iter) as [Habort _].
  destruct (Habort "C" "X") as (e & He & _).
  - vm_compute. set_solver.
  - apply tc_once, (sample_dep sample_listing "C" "X" ["X"]); [vm_compute; reflexivity|left].
  - vm_compute. reflexivity.
  - by exists e.
Defined.

(** C5 (as stated, refuted): the disabled name [A] is a dependency of
    the enabled plugin [B] but has no descriptor; the error is an
    unknown-plugin error, not a required-but-disabled one. *)
Lemma disabled_but_missing_is_unknown :
  closure (plugin_info (build_catalog dangling_listing))
    (enabled_plugins (build_policy [ConfigEntry "B" true; ConfigEntry "A" false] "")) "A" ∧
  "A" ∈ disabled_plugins (build_policy [ConfigEntry "B" true; ConfigEntry "A" false] "") ∧
  result (load_plugins elements working_activator (Some dangling_listing)
            (ConfigData [ConfigEntry "B" true; ConfigEntry "A" false]) "" ())
  = ReturnNone (ResolutionFailed (UnknownPlugin "A")).
Proof.
  split_and!.
  - exists "B". split; [vm_compute; set_solver|].
    apply rtc_once, (sample_dep dangling_listing "B" "A" ["A"]); [vm_compute; reflexivity|left].
  - vm_compute. set_solver.
  - vm_compute. reflexivity.
Qed.

Lemma disabled_requirement_aborts_witness :
  ∃ e, load_plugins elements working_activator (Some chain_listing)
         (ConfigData [ConfigEntry "B" true; ConfigEntry "A" false]) "" ()
       = Run (ReturnNone (ResolutionFailed e))
           (ActState (plugin_info (build_catalog chain_listing)) () []).
Proof.
  destruct (disabled_requirement_aborts elements working_activator chain_listing
              [ConfigEntry "B" true; ConfigEntry "A" false] "" () elements_iter "A")
    as (e & He & _).
  - exists "B". split; [vm_compute; set_solver|].
    apply rtc_once, (sample_dep chain_listing "B" "A" ["A"]); [vm_compute; reflexivity|left].
  - vm_compute. eauto.
  - vm_compute. set_solver.
  - by exists e.
Defined.

Lemma resolution_all_or_nothing_witness :
  result (load_plugins elements working_activator (Some cyclic_listing)
            (ConfigData [ConfigEntry "A" true]) "" ())
  = ReturnNone (ResolutionFailed (CircularDependency "A")) ∧
  attempted (final (load_plugins elements working_activator (Some cyclic_listing)
                      (ConfigData [ConfigEntry "A" true]) "" ())) = [].
Proof.
  destruct (resolution_all_or_nothing elements working_activator cyclic_listing
              [ConfigEntry "A" true] "" () (CircularDependency "A"))
    as (Hres & Htried & _).
  - vm_compute. reflexivity.
  - by split.
Defined.

(** C9 (as stated, refuted): the order is [A; B] and the [init_plugin]
    of [A] raises [SystemExit].  The exception passes the [except
    Exception] of line 249: the loop is left, the code of [B] is never
    run and [load_plugins] returns nothing. *)
Lemma system_exit_aborts_activation :
  resolve (plugin_info (build_catalog chain_listing))
    (disabled_plugins (build_policy [ConfigEntry "B" true] ""))
    (elements (enabled_plugins (build_policy [ConfigEntry "B" true] ""))) = Done ["A"; "B"] ∧
  result (load_plugins elements exiting_activator (Some chain_listing)
            (ConfigData [ConfigEntry "B" true]) "" []) = UncaughtBaseException ∧
  attempted (final (load_plugins elements exiting_activator (Some chain_listing)
                      (ConfigData [ConfigEntry "B" true]) "" [])) = ["A"] ∧
  world (final (load_plugins elements exiting_activator (Some chain_listing)
                  (ConfigData [ConfigEntry "B" true]) "" [])) = ["exec A"; "init A"].
Proof. split_and!; vm_compute; reflexivity. Qed.

Lemma activation_never_aborts_witness :
  ∃ a, load_plugins elements logging_activator (Some sample_listing)
         (ConfigData [ConfigEntry "B" true]) "" []
       = Run (ReturnSet (list_to_set ["A"; "B"])) a ∧
       attempted a = ["A"; "B"] ∧
       world a = ["exec A"; "exec B"; "init B"].
Proof.
  destruct (activation_never_aborts elements logging_activator sample_listing
              [ConfigEntry "B" true] "" [] ["A"; "B"]) as [Hruns _].
  - vm_compute. reflexivity.
  - destruct Hruns as (a & Hrun & Htried & Hw & _).
    + intros l1 x l2 _. unfold aborts. simpl. by destruct (decide (x = "A")).
    + exists a. split_and!; [done..|]. rewrite Hw. vm_compute. reflexivity.
Defined.

Lemma returned_names_in_catalog_witness :
  ∃ listing, Some sample_listing = Some listing ∧
    is_Some (plugin_info (build_catalog listing) !! "A") ∧
    ∃ e, e ∈ listing ∧ entry_name e = "A" ∧ well_formed e.
Proof.
  apply (returned_names_in_catalog elements working_activator (Some sample_listing)
           (ConfigData [ConfigEntry "B" true]) "" () (list_to_set ["A"; "B"]) "A").
  - vm_compute. reflexivity.
  - apply elem_of_list_to_set. left.
Defined.

(** * Further properties *)

(** ** Override names *)

Lemma occurs_lstrip (c : ascii) (s : string) :
  occurs c (lstrip s) = true → occurs c s = true.
Proof.
  induction s as [|c' s IH]; simpl; [done|].
  destruct (is_space c'); [|done].
  intros H. rewrite (IH H). by rewrite orb_true_r.
Qed.

Lemma occurs_rstrip (c : ascii) (s : string) :
  occurs c (rstrip s) = true → occurs c s = true.
Proof.
  induction s as [|c' s IH]; simpl; [done|].
  destruct (rstrip s) as [|c'' r] eqn:Hr.
  - destruct (is_space c'); simpl; [done|].
    rewrite orb_false_r. intros ->. done.
  - simpl in *. intros [->|H]%orb_true_iff; [done|].
    rewrite (IH H). by rewrite orb_true_r.
Qed.

Lemma split_comma_fields (s f : string) :
  f ∈ split_comma s → occurs ","%char f = false.
Proof.
  revert f. induction s as [|c s IH]; intros f; simpl.
  - by intros ->%list_elem_of_singleton.
  - destruct (Ascii.eqb c ",") eqn:Hc.
    + intros [ -> |Hf]%elem_of_cons; [done|by apply IH].
    + destruct (split_comma s) as [|field fields].
      * intros ->%list_elem_of_singleton. simpl. by rewrite Hc.
      * intros [ -> |Hf]%elem_of_cons.
        -- simpl. rewrite Hc. simpl. apply IH. left.
        -- apply IH. by right.
Qed.

Lemma rstrip_idemp (s : string) : rstrip (rstrip s) = rstrip s.
Proof.
  induction s as [|c s IH]; simpl; [done|].
  destruct (rstrip s) as [|c' r] eqn:Hr.
  - destruct (is_space c) eqn:Hc; simpl; [done|]. by rewrite Hc.
  - simpl in *. by rewrite IH.
Qed.

Lemma lstrip_rstrip_lstrip (s : string) : lstrip (rstrip (lstrip s)) = rstrip (lstrip s).
Proof.
  induction s as [|c s IH]; simpl; [done|].
  destruct (is_space c) eqn:Hc; [done|].
  simpl. destruct (rstrip s) as [|c' r]; rewrite ?Hc; simpl; by rewrite Hc.
Qed.

Lemma strip_idemp (s : string) : strip (strip s) = strip s.
Proof. unfold strip. by rewrite lstrip_rstrip_lstrip, rstrip_idemp. Qed.

(** X1: every name taken from ENABLED_PLUGINS is non-empty, carries no
    surrounding whitespace (stripping it again changes nothing) and holds
    no comma. *)
Theorem env_names_clean (env_plugins n : string) :
  n ∈ env_plugin_list env_plugins →
  n ≠ "" ∧ strip n = n ∧ occurs ","%char n = false.
Proof.
  unfold env_plugin_list.
  intros (f & -> & [Hne Hf]%list_elem_of_filter)%list_elem_of_fmap.
  split_and!.
  - intros Heq. by rewrite Heq in Hne.
  - apply strip_idemp.
  - destruct (occurs "," (strip f)) eqn:Ho; [|done].
    apply occurs_rstrip, occurs_lstrip in Ho.
    by rewrite (split_comma_fields _ _ Hf) in Ho.
Qed.

Lemma env_names_clean_witness :
  "auth" ≠ "" ∧ strip "auth" = "auth" ∧ occurs ","%char "auth" = false.
Proof.
  apply (env_names_clean " db ,, auth ,").
  vm_compute. set_solver.
Defined.

Lemma build_policy_enabled (plugins : list config_entry) (env_plugins n : string) :
  n ∈ enabled_plugins (build_policy plugins env_plugins) ↔
  n ∈ enabled_plugins (populate plugins) ∨ n ∈ env_plugin_list env_plugins.
Proof.
  unfold build_policy, apply_env. destruct env_plugins as [|c rest]; simpl nonempty; cbv iota.
  - rewrite env_plugin_list_empty. split; [by left|]. by intros [?|?%elem_of_nil].
  - simpl enabled_plugins. by rewrite elem_of_union, elem_of_list_to_set.
Qed.

Lemma build_policy_disabled (plugins : list config_entry) (env_plugins n : string) :
  n ∈ disabled_plugins (build_policy plugins env_plugins) ↔
  n ∈ disabled_plugins (populate plugins) ∧ n ∉ env_plugin_list env_plugins.
Proof.
  unfold build_policy, apply_env. destruct env_plugins as [|c rest]; simpl nonempty; cbv iota.
  - rewrite env_plugin_list_empty. split; [|by intros [? _]].
    intros ?. split; [done|]. by intros ?%elem_of_nil.
  - simpl disabled_plugins. by rewrite elem_of_difference, elem_of_list_to_set.
Qed.

(** X2: the override touches only the names it lists: every other name is
    enabled after the override exactly when the configuration enabled
    it, and disabled exactly when the configuration disabled it. *)
Theorem override_leaves_others (plugins : list config_entry) (env_plugins n : string) :
  n ∉ env_plugin_list env_plugins →
  (n ∈ enabled_plugins (build_policy plugins env_plugins) ↔
     n ∈ enabled_plugins (populate plugins)) ∧
  (n ∈ disabled_plugins (build_policy plugins env_plugins) ↔
     n ∈ disabled_plugins (populate plugins)).
Proof.
  intros Hn. rewrite build_policy_enabled, build_policy_disabled. tauto.
Qed.

Lemma override_leaves_others_witness :
  ("db" ∈ enabled_plugins (build_policy [ConfigEntry "db" false] "auth") ↔
     "db" ∈ enabled_plugins (populate [ConfigEntry "db" false])) ∧
  ("db" ∈ disabled_plugins (build_policy [ConfigEntry "db" false] "auth") ↔
     "db" ∈ disabled_plugins (populate [ConfigEntry "db" false])).
Proof.
  apply (override_leaves_others [ConfigEntry "db" false] "auth" "db").
  vm_compute. set_solver.
Defined.

(** X3: when no name is listed in the configuration both with a true and
    with a false flag, no name is both enabled and disabled after the
    override either. *)
Theorem consistent_config_disjoint (plugins : list config_entry) (env_plugins n : string) :
  (∀ e1 e2, e1 ∈ plugins → e2 ∈ plugins → name e1 = name e2 → enabled e1 = enabled e2) →
  ¬ (n ∈ enabled_plugins (build_policy plugins env_plugins) ∧
     n ∈ disabled_plugins (build_policy plugins env_plugins)).
Proof.
  intros Hcons [Hon Hoff].
  apply build_policy_disabled in Hoff as [Hoff Hout].
  apply build_policy_enabled in Hon as [Hon|Hin]; [|done].
  unfold populate in Hon, Hoff.
  apply foldl_add_entry_enabled in Hon as [Hon|(e1 & He1 & Hn1 & Ht)];
    [by apply elem_of_empty in Hon|].
  apply foldl_add_entry_disabled in Hoff as [Hoff|(e2 & He2 & Hn2 & Hf)];
    [by apply elem_of_empty in Hoff|].
  assert (enabled e1 = enabled e2) by (apply Hcons; congruence). congruence.
Qed.

Lemma consistent_config_disjoint_witness :
  ¬ ("db" ∈ enabled_plugins (build_policy [ConfigEntry "db" false; ConfigEntry "auth" true] "db") ∧
     "db" ∈ disabled_plugins (build_policy [ConfigEntry "db" false; ConfigEntry "auth" true] "db")).
Proof.
  apply (consistent_config_disjoint [ConfigEntry "db" false; ConfigEntry "auth" true] "db" "db").
  intros e1 e2 H1 H2.
  apply elem_of_cons in H1 as [ -> |H1]; [|apply list_elem_of_singleton in H1 as ->];
  apply elem_of_cons in H2 as [ -> |H2]; try (apply list_elem_of_singleton in H2 as ->);
  simpl; done.
Defined.

(** ** The catalog of a listing *)

Lemma scan_entry_info (cat : catalog) (e : dir_entry) :
  plugin_info (scan_entry cat e) =
  match declared_deps e with
  | Some deps => <[ entry_name e := new_plugin deps ]> (plugin_info cat)
  | None => plugin_info cat
  end.
Proof.
  unfold scan_entry, declared_deps.
  destruct (is_dir e), (has_metadata_json e), (has_plugin_py e); simpl; try done.
  by destruct (metadata e) as [|[| |]].
Qed.

Lemma scan_entry_all (cat : catalog) (e : dir_entry) :
  all_plugins_in_directory (scan_entry cat e) =
  if is_dir e then all_plugins_in_directory cat ∪ {[ entry_name e ]}
  else all_plugins_in_directory cat.
Proof.
  unfold scan_entry.
  destruct (is_dir e), (has_metadata_json e), (has_plugin_py e); simpl; try done.
  by destruct (metadata e) as [|[| |]].
Qed.

Lemma foldl_scan_entry_other (listing : list dir_entry) (cat : catalog) (x : string) :
  (∀ e, e ∈ listing → entry_name e ≠ x) →
  plugin_info (foldl scan_entry cat listing) !! x = plugin_info cat !! x.
Proof.
  revert cat. induction listing as [|d listing IH]; intros cat Hne; simpl; [done|].
  rewrite IH by (intros e He; apply Hne; by right).
  rewrite scan_entry_info.
  destruct (declared_deps d); [|done].
  apply lookup_insert_ne, Hne. left.
Qed.

Lemma foldl_scan_entry_unique (listing : list dir_entry) (cat : catalog) (e : dir_entry) :
  NoDup (entry_name <$> listing) → e ∈ listing →
  plugin_info (foldl scan_entry cat listing) !! entry_name e =
  match declared_deps e with
  | Some deps => Some (new_plugin deps)
  | None => plugin_info cat !! entry_name e
  end.
Proof.
  revert cat. induction listing as [|d listing IH]; intros cat Hnd He; simpl.
  - by apply elem_of_nil in He.
  - rewrite fmap_cons in Hnd. apply NoDup_cons in Hnd as [Hfresh Hnd].
    apply elem_of_cons in He as [ -> |He].
    + rewrite foldl_scan_entry_other.
      * rewrite scan_entry_info. destruct (declared_deps d); [|done].
        apply lookup_insert_eq.
      * intros e' He' Heq. apply Hfresh, list_elem_of_fmap. by exists e'.
    + rewrite (IH _ Hnd He). destruct (declared_deps e); [done|].
      rewrite scan_entry_info. destruct (declared_deps d); [|done].
      apply lookup_insert_ne. intros Heq. apply Hfresh, list_elem_of_fmap. by exists e.
Qed.

Lemma foldl_scan_entry_all (listing : list dir_entry) (cat : catalog) (x : string) :
  x ∈ all_plugins_in_directory (foldl scan_entry cat listing) ↔
  x ∈ all_plugins_in_directory cat ∨ ∃ e, e ∈ listing ∧ entry_name e = x ∧ is_dir e = true.
Proof.
  revert cat. induction listing as [|d listing IH]; intros cat; simpl.
  - split; [by left|]. intros [?|(e & He & _)]; [done|by apply elem_of_nil in He].
  - rewrite IH, scan_entry_all. split.
    + intros [Hx|(e & He & Hn & Hd)].
      * destruct (is_dir d) eqn:Hdir; [|by left].
        apply elem_of_union in Hx as [?|Hx%elem_of_singleton]; [by left|].
        right. exists d. split; [left|done].
      * right. exists e. split; [by right|done].
    + intros [Hx|(e & He & Hn & Hd)].
      * left. destruct (is_dir d); [|done]. apply elem_of_union. by left.
      * apply elem_of_cons in He as [ -> |He].
        -- left. rewrite Hd. apply elem_of_union. right. by apply elem_of_singleton.
        -- right. by exists e.
Qed.

(** X4: when the directory listing names each entry once, as
    [os.listdir] does, every entry that is a directory holding
    metadata.json and plugin.py, and whose metadata is an object with a
    list of dependencies or none declared, has a descriptor in the
    catalog: a fresh, unloaded one with exactly the dependencies the
    entry declares; no other entry overwrites or removes it. *)
Theorem catalog_of_listing (listing : list dir_entry) (e : dir_entry) (deps : list string) :
  NoDup (entry_name <$> listing) → e ∈ listing →
  declared_deps e = Some deps →
  plugin_info (build_catalog listing) !! entry_name e = Some (new_plugin deps).
Proof.
  intros Hnd He Hdeps. unfold build_catalog.
  rewrite (foldl_scan_entry_unique listing _ e Hnd He). by rewrite Hdeps.
Qed.

Lemma catalog_of_listing_witness :
  plugin_info (build_catalog mixed_listing) !! "B" = Some (new_plugin ["A"]).
Proof.
  apply (catalog_of_listing mixed_listing (plugin_dir "B" ["A"]) ["A"]).
  - vm_compute. repeat (constructor; [set_solver|]). constructor.
  - right. left.
  - reflexivity.
Defined.

(** X5: the set of all plugins in the directory holds exactly the names
    of the listing's directories, and every descriptor of the catalog
    belongs to one of them: a plain file never enters either. *)
Theorem directory_names (listing : list dir_entry) (x : string) :
  (x ∈ all_plugins_in_directory (build_catalog listing) ↔
     ∃ e, e ∈ listing ∧ entry_name e = x ∧ is_dir e = true) ∧
  (is_Some (plugin_info (build_catalog listing) !! x) →
     x ∈ all_plugins_in_directory (build_catalog listing)).
Proof.
  assert (Hall : x ∈ all_plugins_in_directory (build_catalog listing) ↔
     ∃ e, e ∈ listing ∧ entry_name e = x ∧ is_dir e = true).
  { unfold build_catalog. rewrite foldl_scan_entry_all. simpl.
    split; [by intros [?%elem_of_empty|?]|by right]. }
  split; [done|]. intros Hx. apply Hall.
  destruct (build_catalog_lookup listing x Hx) as (e & He & Hn & Hd & _).
  by exists e.
Qed.

(** ** When resolution succeeds *)

Lemma resolve_succeeds (info : gmap string plugin) (disabled : gset string)
    (roots : string → Prop) (names : list string) :
  (∀ r, r ∈ names → roots r) →
  (∀ y, reach info roots y → is_Some (info !! y) ∧ (y ∉ disabled) ∧ ¬ on_cycle info y) →
  ∃ order, resolve info disabled names = Done order.
Proof.
  intros Hroots Hclean.
  destruct (resolve info disabled names) as [order|e|] eqn:Hres.
  - by exists order.
  - exfalso. apply resolve_raised with (roots := roots) in Hres; [|done].
    destruct (justified_cases _ _ _ _ Hres) as (y & Hy & Hcase).
    destruct (Hclean y Hy) as ([p Hp] & Hoff & Hcyc).
    destruct Hcase as [[_ ?]|[[_ ?]|[_ [_ ?]]]]; [done|congruence|done].
  - by apply resolve_total in Hres.
Qed.

Lemma resolve_done_clean (info : gmap string plugin) (disabled enabled : gset string)
    (names order : list string) :
  (∀ r, r ∈ names ↔ r ∈ enabled) →
  resolve info disabled names = Done order →
  ∀ y, reach info (λ r, r ∈ enabled) y →
    y ∈ order ∧ is_Some (info !! y) ∧ (y ∉ disabled) ∧ ¬ on_cycle info y.
Proof.
  intros Hnames Hres y (r & Hr & Hin & Hry).
  destruct (resolve_done info disabled (λ r, r ∈ enabled) names order)
    as (Hnd & Hbefore & Hentry & Hall); [by intros ? ?%Hnames|done|].
  assert (Hy : y ∈ order).
  { apply (deps_before_closed info order r y Hbefore); [|done].
    apply Hall; [by apply Hnames|done]. }
  destruct (Hentry y Hy) as (? & ? & _).
  split_and!; [done..|]. by apply (deps_before_acyclic info order).
Qed.

Section RunFacts.
Context {World : Type}.
Variable set_iter : gset string → list string.
Variable act : activator World.
Variable listing : list dir_entry.
Variable plugins : list config_entry.
Variable env_plugins : string.
Variable w : World.

Hypothesis set_iter_spec : ∀ (s : gset string) (x : string), x ∈ set_iter s ↔ x ∈ s.

Local Abbreviation info := (plugin_info (build_catalog listing)).
Local Abbreviation pol := (build_policy plugins env_plugins).
Local Abbreviation on := (enabled_plugins (build_policy plugins env_plugins)).
Local Abbreviation off := (disabled_plugins (build_policy plugins env_plugins)).
Local Abbreviation resolution :=
  (resolve (plugin_info (build_catalog listing))
     (disabled_plugins (build_policy plugins env_plugins))
     (set_iter (enabled_plugins (build_policy plugins env_plugins)))).
Local Abbreviation the_run :=
  (load_plugins set_iter act (Some listing) (ConfigData plugins) env_plugins w).
Local Abbreviation start := (ActState (plugin_info (build_catalog listing)) w []).

Lemma load_plugins_cases :
  (∃ order a, resolution = Done order ∧
     the_run = Run (ReturnSet (list_to_set order)) a ∧
     activate_all act order start = Completed a ∧ attempted a = order ∧
     world a = foldl (plugin_effect act) w order) ∨
  (∃ order a l1 x l2, resolution = Done order ∧
     the_run = Run UncaughtBaseException a ∧
     order = l1 ++ x :: l2 ∧ attempted a = l1 ++ [x] ∧
     world a = foldl (plugin_effect act) w (l1 ++ [x]) ∧
     aborts act x (foldl (plugin_effect act) w l1) = true) ∨
  (∃ e, resolution = Raised e ∧ the_run = Run (ReturnNone (ResolutionFailed e)) start).
Proof.
  destruct resolution as [order|e|] eqn:Hres.
  - destruct (load_plugins_done set_iter act listing plugins env_plugins w order Hres)
      as (_ & [(a & Hall & Hrun & Htried & Hw & _)
              |(a & l1 & x & l2 & _ & Hrun & Heq & Htried & Hw & Hb)]).
    + left. by exists order, a.
    + right; left. by exists order, a, l1, x, l2.
  - right; right. exists e. split; [done|]. by apply load_plugins_raised.
  - by apply resolve_total in Hres.
Qed.

Lemma resolves_resolvable :
  (∃ order, resolution = Done order) ↔ resolvable info pol.
Proof.
  split.
  - intros [order Hres] y Hy.
    destruct (resolve_done_clean info off on _ order (set_iter_spec on) Hres y Hy)
      as (_ & ? & ? & ?). done.
  - intros Hclean.
    apply (resolve_succeeds info off (λ r, r ∈ on) (set_iter on));
      [by intros r ?%set_iter_spec|done].
Qed.

Lemma resolved_members (order : list string) (x : string) :
  resolution = Done order →
  x ∈ order ↔ closure info on x ∧ is_Some (info !! x).
Proof.
  intros Hres.
  destruct (resolve_done info off (λ r, r ∈ on) (set_iter on) order)
    as (_ & _ & Hentry & _); [by intros r ?%set_iter_spec|done|].
  split.
  - intros Hx. destruct (Hentry x Hx) as (? & _ & ?). split; [by apply reach_closure|done].
  - intros [Hc Hin].
    by destruct (resolve_done_clean info off on _ order (set_iter_spec on) Hres x
                   (closure_reach _ _ _ Hc Hin)).
Qed.

Lemma returned_set_members (s : gset string) (x : string) :
  result the_run = ReturnSet s →
  x ∈ s ↔ closure info on x ∧ is_Some (info !! x).
Proof.
  intros Hs.
  destruct load_plugins_cases
    as [(order & a & Hres & Hrun & _)|[(order & a & ? & ? & ? & _ & Hrun & _)|(e & _ & Hrun)]];
    rewrite Hrun in Hs; [|discriminate..].
  simpl in Hs. inversion Hs; subst s. rewrite elem_of_list_to_set.
  by apply resolved_members.
Qed.


(** X6: the resolution step completes exactly when no name that can be
    reached from an enabled plugin with a descriptor is missing from the
    catalog, disabled or on a dependency cycle; when one is, it raises
    and [load_plugins] returns [None] without running any plugin code;
    when none is, the whole order is handed to the activation loop. *)
Theorem resolves_iff_resolvable :
  ((∃ order, resolve info off (set_iter on) = Done order) ↔ resolvable info pol) ∧
  (¬ resolvable info pol →
     ∃ e, resolve info off (set_iter on) = Raised e ∧
       load_plugins set_iter act (Some listing) (ConfigData plugins) env_plugins w =
       Run (ReturnNone (ResolutionFailed e)) start) ∧
  (resolvable info pol →
     ∃ order, resolve info off (set_iter on) = Done order ∧
       (result (load_plugins set_iter act (Some listing) (ConfigData plugins) env_plugins w)
          = ReturnSet (list_to_set order) ∨
        result (load_plugins set_iter act (Some listing) (ConfigData plugins) env_plugins w)
          = UncaughtBaseException)).
Proof.
  split_and!.
  - apply resolves_resolvable.
  - intros Hnot.
    destruct load_plugins_cases
      as [(order & a & Hres & _)|[(order & a & ? & ? & ? & Hres & _)|(e & Hres & Hrun)]].
    + destruct Hnot. apply resolves_resolvable. by exists order.
    + destruct Hnot. apply resolves_resolvable. by exists order.
    + by exists e.
  - intros [order Hres]%resolves_resolvable. exists order. split; [done|].
    destruct (load_plugins_done set_iter act listing plugins env_plugins w order Hres)
      as (_ & [(a & _ & Hrun & _)|(a & ? & ? & ? & _ & Hrun & _)]); rewrite Hrun; simpl;
      [by left|by right].
Qed.


End RunFacts.

(** X9: the lookup [plugin_info[plugin_name]] of the activation loop
    never fails, so no [KeyError] escapes [load_plugins]; the recursion
    of [visit] always ends; and whenever [None] is returned, for
    whatever reason, no plugin code has been run. *)
Theorem no_escape {World : Type} (set_iter : gset string → list string)
    (act : activator World) (plugin_directory : option (list dir_entry))
    (config : config_file) (env_plugins : string) (w : World) :
  let r := load_plugins set_iter act plugin_directory config env_plugins w in
  result r ≠ UncaughtKeyError ∧
  result r ≠ ReturnNone RecursionLimit ∧
  ∀ why, result r = ReturnNone why → attempted (final r) = [] ∧ world (final r) = w.
Proof.
  cbv zeta.
  destruct plugin_directory as [listing|]; [|by split_and!].
  destruct config as [| |plugins]; [by split_and!..|].
  destruct (resolve (plugin_info (build_catalog listing))
              (disabled_plugins (build_policy plugins env_plugins))
              (set_iter (enabled_plugins (build_policy plugins env_plugins))))
    as [order|e|] eqn:Hres.
  - destruct (load_plugins_done set_iter act listing plugins env_plugins w order Hres)
      as (_ & [(a & _ & Hrun & _)|(a & ? & ? & ? & _ & Hrun & _)]);
      rewrite Hrun; by split_and!.
  - rewrite (load_plugins_raised set_iter act listing plugins env_plugins w e Hres).
    by split_and!.
  - by apply resolve_total in Hres.
Qed.

(** X10: what is returned does not depend on the order in which the
    enabled set is iterated.  When one run returns a set, every run on
    the same directory, configuration and environment returns that set,
    unless its plugin code raises an exception outside [Exception],
    which escapes; when one run returns [None], so does every other. *)
Theorem iteration_order_irrelevant {World : Type}
    (iter1 iter2 : gset string → list string) (act1 act2 : activator World)
    (plugin_directory : option (list dir_entry)) (config : config_file)
    (env_plugins : string) (w1 w2 : World) :
  (∀ (s : gset string) (x : string), x ∈ iter1 s ↔ x ∈ s) →
  (∀ (s : gset string) (x : string), x ∈ iter2 s ↔ x ∈ s) →
  (∀ s, result (load_plugins iter1 act1 plugin_directory config env_plugins w1) = ReturnSet s →
     result (load_plugins iter2 act2 plugin_directory config env_plugins w2) = ReturnSet s ∨
     result (load_plugins iter2 act2 plugin_directory config env_plugins w2)
       = UncaughtBaseException) ∧
  (never_aborts act2 →
   ∀ s, result (load_plugins iter1 act1 plugin_directory config env_plugins w1) = ReturnSet s →
     result (load_plugins iter2 act2 plugin_directory config env_plugins w2) = ReturnSet s) ∧
  (∀ why, result (load_plugins iter1 act1 plugin_directory config env_plugins w1)
            = ReturnNone why →
     ∃ why', result (load_plugins iter2 act2 plugin_directory config env_plugins w2)
            = ReturnNone why').
Proof.
  intros H1 H2.
  assert (Hset : ∀ s,
    result (load_plugins iter1 act1 plugin_directory config env_plugins w1) = ReturnSet s →
    (result (load_plugins iter2 act2 plugin_directory config env_plugins w2) = ReturnSet s ∨
     result (load_plugins iter2 act2 plugin_directory config env_plugins w2)
       = UncaughtBaseException) ∧
    (never_aborts act2 →
     result (load_plugins iter2 act2 plugin_directory config env_plugins w2) = ReturnSet s)).
  { intros s Hs.
    destruct plugin_directory as [listing|]; [|done].
    destruct config as [| |plugins]; [done..|].
    destruct (load_plugins_cases iter1 act1 listing plugins env_plugins w1)
      as [(order1 & a1 & Hres1 & Hrun1 & _)
         |[(order1 & a1 & ? & ? & ? & _ & Hrun1 & _)|(e & _ & Hrun1)]];
      rewrite Hrun1 in Hs; [|discriminate..].
    simpl in Hs. inversion Hs; subst s.
    destruct (proj2 (resolves_resolvable iter2 listing plugins env_plugins H2)) as [order2 Hres2].
    { apply (resolves_resolvable iter1 listing plugins env_plugins H1). by exists order1. }
    assert (Heq : (list_to_set order2 : gset string) = list_to_set order1).
    { apply set_eq. intros x. rewrite !elem_of_list_to_set.
      rewrite (resolved_members iter1 listing plugins env_plugins H1 order1 x Hres1).
      by rewrite (resolved_members iter2 listing plugins env_plugins H2 order2 x Hres2). }
    destruct (load_plugins_done iter2 act2 listing plugins env_plugins w2 order2 Hres2)
      as (_ & [(a2 & _ & Hrun2 & _)|(a2 & l1 & x & l2 & _ & Hrun2 & _ & _ & _ & Hb)]);
      rewrite Hrun2; simpl.
    - rewrite Heq. split; [by left|done].
    - split; [by right|]. intros Hnever. by rewrite Hnever in Hb. }
  split_and!.
  - intros s Hs. by apply Hset.
  - intros Hnever s Hs. by apply Hset.
  - intros why Hwhy.
    destruct plugin_directory as [listing|]; [|by eexists].
    destruct config as [| |plugins]; [by eexists..|].
    destruct (load_plugins_cases iter1 act1 listing plugins env_plugins w1)
      as [(order1 & a1 & _ & Hrun1 & _)
         |[(order1 & a1 & ? & ? & ? & _ & Hrun1 & _)|(e1 & Hres1 & Hrun1)]];
      rewrite Hrun1 in Hwhy; [discriminate..|].
    destruct (load_plugins_cases iter2 act2 listing plugins env_plugins w2)
      as [(order2 & a2 & Hres2 & _)
         |[(order2 & a2 & ? & ? & ? & Hres2 & _)|(e2 & _ & Hrun2)]].
    + exfalso.
      destruct (proj2 (resolves_resolvable iter1 listing plugins env_plugins H1)) as [o Ho];
        [apply (resolves_resolvable iter2 listing plugins env_plugins H2); by exists order2|].
      congruence.
    + exfalso.
      destruct (proj2 (resolves_resolvable iter1 listing plugins env_plugins H1)) as [o Ho];
        [apply (resolves_resolvable iter2 listing plugins env_plugins H2); by exists order2|].
      congruence.
    + rewrite Hrun2. by eexists.
Qed.

(** ** Which plugins end up marked loaded *)

Section LoadedFacts.
Context {World : Type}.
Variable act : activator World.

Lemma activate_one_loaded (a a' : act_state World) (n y : string) :
  activate_one act a n = Completed a' →
  loaded_in (act_info a') y ↔
  loaded_in (act_info a) y ∨
  (y = n ∧ ∃ w1 w2, exec_module act n (world a) = (ExecOk true, w1) ∧
                    init_plugin act n w1 = (InitReturned, w2)).
Proof.
  unfold activate_one. destruct (act_info a !! n) as [p|] eqn:Hp; [|done].
  destruct (exec_module act n (world a)) as [[|[|]|] w1] eqn:Hexec; [| | |done].
  - intros [= <-]. simpl. split; [by left|]. by intros [?|(_ & ? & ? & ? & _)].
  - destruct (init_plugin act n w1) as [[| |] w2] eqn:Hinit; [| |done]; intros [= <-]; simpl.
    + split.
      * intros (q & Hq & Hl). destruct (decide (n = y)) as [ -> |Hne].
        -- right. split; [done|]. by exists w1, w2.
        -- left. exists q. by rewrite lookup_insert_ne in Hq.
      * intros [(q & Hq & Hl)|[-> _]].
        -- destruct (decide (n = y)) as [ -> |Hne].
           ++ eexists. by rewrite lookup_insert_eq.
           ++ exists q. by rewrite lookup_insert_ne.
        -- eexists. by rewrite lookup_insert_eq.
    + split; [by left|]. intros [?|(_ & w1' & w2' & [= <-] & Hi)]; [done|].
      rewrite Hinit in Hi. discriminate.
  - intros [= <-]. simpl. split; [by left|]. by intros [?|(_ & ? & ? & ? & _)].
Qed.

Lemma activate_all_loaded (order : list string) (a a' : act_state World) (y : string) :
  activate_all act order a = Completed a' →
  loaded_in (act_info a') y ↔
  loaded_in (act_info a) y ∨
  ∃ l1 l2 mid w1 w2, order = l1 ++ y :: l2 ∧
    activate_all act l1 a = Completed mid ∧
    exec_module act y (world mid) = (ExecOk true, w1) ∧
    init_plugin act y w1 = (InitReturned, w2).
Proof.
  revert a. induction order as [|n order IH]; intros a; simpl.
  - intros [= <-]. split; [by left|]. intros [?|(l1 & l2 & ? & ? & ? & Heq & _)]; [done|].
    by destruct l1.
  - destruct (activate_one act a n) as [a1|why a1] eqn:Hone; [|done].
    intros Hall. rewrite (IH a1 Hall), (activate_one_loaded a a1 n y Hone). split.
    + intros [[?|(-> & w1 & w2 & He & Hi)]|(l1 & l2 & mid & w1 & w2 & -> & Hmid & He & Hi)].
      * by left.
      * right. by exists [], order, a, w1, w2.
      * right. exists (n :: l1), l2, mid, w1, w2. simpl. by rewrite Hone.
    + intros [?|(l1 & l2 & mid & w1 & w2 & Heq & Hmid & He & Hi)]; [by left; left|].
      destruct l1 as [|n' l1]; simpl in *.
      * inversion Heq; subst. inversion Hmid; subst. left. right.
        split; [done|]. by exists w1, w2.
      * inversion Heq; subst. rewrite Hone in Hmid. right.
        by exists l1, l2, mid, w1, w2.
Qed.
End LoadedFacts.

(** X11: after a run that returns a set, a plugin is marked loaded
    exactly when, at its turn in the order, its module was imported, had
    an [init_plugin], and the call of [init_plugin] returned. *)
Theorem loaded_iff_initialised {World : Type} (set_iter : gset string → list string)
    (act : activator World) (listing : list dir_entry) (plugins : list config_entry)
    (env_plugins : string) (w : World) (s : gset string) (y : string) :
  let r := load_plugins set_iter act (Some listing) (ConfigData plugins) env_plugins w in
  result r = ReturnSet s →
  loaded_in (act_info (final r)) y ↔
  ∃ l1 l2 mid w1 w2, attempted (final r) = l1 ++ y :: l2 ∧
    activate_all act l1 (ActState (plugin_info (build_catalog listing)) w []) = Completed mid ∧
    exec_module act y (world mid) = (ExecOk true, w1) ∧
    init_plugin act y w1 = (InitReturned, w2).
Proof.
  cbv zeta. intros Hs.
  destruct (load_plugins_cases set_iter act listing plugins env_plugins w)
    as [(order & a & Hres & Hrun & Hall & Htried & _)
       |[(order & a & ? & ? & ? & _ & Hrun & _)|(e & _ & Hrun)]];
    rewrite Hrun in Hs |- *; [|discriminate..].
  simpl. rewrite Htried, (activate_all_loaded act order _ a y Hall). simpl.
  split; [|by right]. intros [Hstart|?]; [|done].
  by apply build_catalog_unloaded in Hstart.
Qed.

Lemma loaded_iff_initialised_witness :
  loaded_in (act_info (final (load_plugins elements working_activator (Some sample_listing)
                                (ConfigData [ConfigEntry "B" true]) "" ()))) "A" ↔
  ∃ l1 l2 mid w1 w2,
    attempted (final (load_plugins elements working_activator (Some sample_listing)
                        (ConfigData [ConfigEntry "B" true]) "" ())) = l1 ++ "A" :: l2 ∧
    activate_all working_activator l1
      (ActState (plugin_info (build_catalog sample_listing)) () []) = Completed mid ∧
    exec_module working_activator "A" (world mid) = (ExecOk true, w1) ∧
    init_plugin working_activator "A" w1 = (InitReturned, w2).
Proof.
  apply (loaded_iff_initialised elements working_activator sample_listing
           [ConfigEntry "B" true] "" () (list_to_set ["A"; "B"]) "A").
  vm_compute. reflexivity.
Defined.

(** X12: when the code of every plugin imports and initialises, the
    plugins marked loaded at the end are exactly the members of the
    returned set. *)
Theorem all_succeed_all_loaded {World : Type} (set_iter : gset string → list string)
    (act : activator World) (listing : list dir_entry) (plugins : list config_entry)
    (env_plugins : string) (w : World) (s : gset string) (y : string) :
  let r := load_plugins set_iter act (Some listing) (ConfigData plugins) env_plugins w in
  always_succeeds act →
  result r = ReturnSet s →
  loaded_in (act_info (final r)) y ↔ y ∈ s.
Proof.
  cbv zeta. intros Hact Hs.
  destruct (load_plugins_cases set_iter act listing plugins env_plugins w)
    as [(order & a & Hres & Hrun & Hall & Htried & _)
       |[(order & a & ? & ? & ? & _ & Hrun & _)|(e & _ & Hrun)]];
    rewrite Hrun in Hs |- *; [|discriminate..].
  simpl in *. inversion Hs; subst s. rewrite elem_of_list_to_set. split.
  - intros Hy. destruct (activate_all_origin act order _ a y Hall Hy) as [Hstart|?]; [|done].
    by apply build_catalog_unloaded in Hstart.
  - intros (l1 & l2 & ->)%list_elem_of_split.
    apply (activate_all_loaded act _ _ a y Hall). right.
    rewrite activate_all_app in Hall.
    destruct (activate_all act l1 _) as [mid|why mid] eqn:Hmid; [|done].
    destruct (Hact y (world mid)) as [[w1 He] _].
    destruct (Hact y w1) as [_ [w2 Hi]].
    by exists l1, l2, mid, w1, w2.
Qed.

Lemma all_succeed_all_loaded_witness :
  loaded_in (act_info (final (load_plugins elements working_activator (Some sample_listing)
                                (ConfigData [ConfigEntry "B" true]) "" ()))) "B" ↔
  "B" ∈ (list_to_set ["A"; "B"] : gset string).
Proof.
  apply (all_succeed_all_loaded elements working_activator sample_listing
           [ConfigEntry "B" true] "" () (list_to_set ["A"; "B"]) "B").
  - intros n []. split; by eexists.
  - vm_compute. reflexivity.
Defined.

(** X13: with nothing enabled, or with no usable plugin directory in
    the listing, [load_plugins] returns the empty set without running any
    plugin code; neither case is an error. *)
Theorem nothing_to_load {World : Type} (set_iter : gset string → list string)
    (act : activator World) (listing : list dir_entry) (plugins : list config_entry)
    (env_plugins : string) (w : World) :
  (∀ (s : gset string) (x : string), x ∈ set_iter s ↔ x ∈ s) →
  enabled_plugins (build_policy plugins env_plugins) = ∅ ∨
  plugin_info (build_catalog listing) = ∅ →
  load_plugins set_iter act (Some listing) (ConfigData plugins) env_plugins w =
  Run (ReturnSet ∅) (ActState (plugin_info (build_catalog listing)) w []).
Proof.
  intros Hiter Hempty.
  assert (Hres : resolve (plugin_info (build_catalog listing))
            (disabled_plugins (build_policy plugins env_plugins))
            (set_iter (enabled_plugins (build_policy plugins env_plugins))) = Done []).
  { destruct Hempty as [Hon|Hinfo].
    - rewrite Hon. destruct (set_iter ∅) as [|x l] eqn:Hl; [done|].
      exfalso. apply (not_elem_of_empty (C:=gset string) x), Hiter. rewrite Hl. left.
    - rewrite Hinfo. unfold resolve.
      assert (Hskip : ∀ names fuel st,
        visit_enabled (∅ : gmap string plugin)
          (disabled_plugins (build_policy plugins env_plugins)) fuel names st = Done st).
      { induction names as [|r names IH]; intros fuel st; simpl; [done|].
        rewrite lookup_empty. apply IH. }
      by rewrite Hskip. }
  unfold load_plugins. by rewrite Hres.
Qed.

Lemma nothing_to_load_witness :
  load_plugins elements working_activator (Some sample_listing)
    (ConfigData [ConfigEntry "B" false]) "" () =
  Run (ReturnSet ∅) (ActState (plugin_info (build_catalog sample_listing)) () []).
Proof.
  apply (nothing_to_load elements working_activator sample_listing
           [ConfigEntry "B" false] "" () elements_iter).
  left. vm_compute. reflexivity.
Defined.

(** ** The closing report *)

Section ReportFacts.
Context {World : Type}.
Variable set_iter : gset string → list string.
Variable act : activator World.
Variable listing : list dir_entry.
Variable plugins : list config_entry.
Variable env_plugins : string.
Variable w : World.

Hypothesis set_iter_spec : ∀ (s : gset string) (x : string), x ∈ set_iter s ↔ x ∈ s.

Local Abbreviation info := (plugin_info (build_catalog listing)).
Local Abbreviation all := (all_plugins_in_directory (build_catalog listing)).
Local Abbreviation pol := (build_policy plugins env_plugins).
Local Abbreviation on := (enabled_plugins (build_policy plugins env_plugins)).
Local Abbreviation off := (disabled_plugins (build_policy plugins env_plugins)).
Local Abbreviation the_run :=
  (load_plugins set_iter act (Some listing) (ConfigData plugins) env_plugins w).
Local Abbreviation report :=
  (load_plugins_report set_iter act (Some listing) (ConfigData plugins) env_plugins w).

Lemma report_of_run (s : gset string) :
  result the_run = ReturnSet s →
  report = closing_report set_iter pol (act_info (final the_run)) all s ∧
  (∀ x, is_Some (act_info (final the_run) !! x) ↔ is_Some (info !! x)) ∧
  (∀ x, x ∈ s → is_Some (info !! x) ∧ (x ∉ off)) ∧
  (∀ x, x ∈ on → is_Some (info !! x) → x ∈ s).
Proof.
  intros Hs. split; [unfold load_plugins_report; by rewrite Hs|].
  destruct (load_plugins_cases set_iter act listing plugins env_plugins w)
    as [(order & a & Hres & Hrun & Hall & Htried & _)
       |[(order & a & ? & ? & ? & _ & Hrun & _)|(e & _ & Hrun)]];
    rewrite Hrun in Hs |- *; [|discriminate..].
  simpl in Hs. inversion Hs; subst s. simpl.
  destruct (resolve_done info off (λ r, r ∈ on) (set_iter on) order)
    as (_ & _ & Hentry & Hin); [by intros r ?%set_iter_spec|done|].
  split_and!.
  - intros x.
    destruct (activate_all_spec act order
                (ActState (plugin_info (build_catalog listing)) w []))
      as [(a' & Hall' & _ & _ & Hdom & _)|(a' & ? & ? & ? & Hall' & _)]; [| |congruence].
    { intros y Hy. apply elem_of_dom. by destruct (Hentry y Hy). }
    assert (a' = a) as -> by congruence. simpl in Hdom.
    by rewrite <- !elem_of_dom, Hdom.
  - intros x Hx%elem_of_list_to_set. by destruct (Hentry x Hx) as (? & ? & _).
  - intros x Hon Hsome. apply elem_of_list_to_set, Hin; [|done]. by apply set_iter_spec.
Qed.

Lemma report_none (n : notice) :
  (∀ s, result the_run ≠ ReturnSet s) → n ∉ report.
Proof.
  intros Hnone. unfold load_plugins_report.
  destruct (result the_run) as [why|s| |]; [by intros ?%elem_of_nil| |by intros ?%elem_of_nil..].
  by destruct (Hnone s).
Qed.

Lemma closing_report_not_loaded (p : policy) (m : gmap string plugin)
    (dirs s : gset string) (n : notice) :
  (∀ x, n ≠ DisabledNotFound x) →
  n ∈ closing_report set_iter p m dirs s ↔
  ∃ x, x ∈ dirs ∧ (x ∉ s) ∧ n = classify_not_loaded p m x.
Proof.
  intros Hn. unfold closing_report. rewrite elem_of_app, !list_elem_of_fmap. split.
  - intros [(x & -> & Hx)|(x & -> & _)]; [|by destruct (Hn x)].
    apply set_iter_spec, elem_of_difference in Hx as [? ?]. by exists x.
  - intros (x & Hd & Hs & ->). left. exists x. split; [done|].
    by apply set_iter_spec, elem_of_difference.
Qed.

(** X14: the warning that a plugin "was not loaded for unknown reasons"
    is logged for a name exactly when the run returns a set and the name
    is a directory of the plugin directory that is not disabled and has
    no descriptor, that is, a malformed plugin directory. *)
Theorem unknown_reason_is_malformed (x : string) :
  NotLoadedUnknownReason x ∈ load_plugins_report set_iter act (Some listing) (ConfigData plugins) env_plugins w ↔
  (∃ s, result (load_plugins set_iter act (Some listing) (ConfigData plugins) env_plugins w) = ReturnSet s) ∧
  x ∈ all ∧ (x ∉ off) ∧ info !! x = None.
Proof.
  split.
  - intros Hin.
    destruct (result the_run) as [why|s| |] eqn:Hs;
      [by apply report_none in Hin; [|rewrite Hs]|
      |by apply report_none in Hin; [|rewrite Hs]..].
    destruct (report_of_run s Hs) as (Hrep & Hdom & Hmem & Hon).
    rewrite Hrep in Hin. apply closing_report_not_loaded in Hin as (y & Hd & Hns & Hcl); [|done].
    unfold classify_not_loaded in Hcl.
    destruct (decide (y ∈ off)) as [|Hoff]; [done|].
    destruct (decide ((y ∉ on) ∧ is_Some (act_info (final the_run) !! y))) as [|Hno]; [done|].
    inversion Hcl; subst y. split_and!; [by exists s|done..|].
    destruct (info !! x) as [p|] eqn:Hp; [|done].
    exfalso. assert (Hsome : is_Some (info !! x)) by (by rewrite Hp).
    apply Hno. split; [|by apply Hdom]. intros Hin'. by apply Hns, Hon.
  - intros ([s Hs] & Hd & Hoff & Hnone).
    destruct (report_of_run s Hs) as (Hrep & Hdom & Hmem & Hon).
    rewrite Hrep. apply closing_report_not_loaded; [done|].
    exists x. split_and!; [done| |].
    + intros Hx. destruct (Hmem x Hx) as [[p Hp] _]. congruence.
    + unfold classify_not_loaded. rewrite decide_False by done.
      rewrite decide_False; [done|]. intros [_ [p Hp]%Hdom]. congruence.
Qed.

(** X15: when the run returns a set, a directory is reported disabled
    exactly when it is in the disabled set, it is reported not enabled
    exactly when it has a descriptor, is neither enabled nor disabled
    and is not in the returned set, and a disabled name is reported not
    found exactly when no directory bears it. *)
Theorem report_classifies (s : gset string) (x : string) :
  result (load_plugins set_iter act (Some listing) (ConfigData plugins) env_plugins w) = ReturnSet s →
  (DisabledNotLoaded x ∈ load_plugins_report set_iter act (Some listing) (ConfigData plugins) env_plugins w ↔
     x ∈ all ∧ x ∈ off) ∧
  (NotEnabledNotLoaded x ∈ load_plugins_report set_iter act (Some listing) (ConfigData plugins) env_plugins w ↔
     x ∈ all ∧ (x ∉ s) ∧ (x ∉ off) ∧ (x ∉ on) ∧ is_Some (info !! x)) ∧
  (DisabledNotFound x ∈ load_plugins_report set_iter act (Some listing) (ConfigData plugins) env_plugins w ↔
     x ∈ off ∧ x ∉ all).
Proof.
  intros Hs. destruct (report_of_run s Hs) as (Hrep & Hdom & Hmem & Hon).
  rewrite Hrep. split_and!.
  - rewrite closing_report_not_loaded by done. unfold classify_not_loaded. split.
    + intros (y & Hd & Hns & Hcl).
      destruct (decide (y ∈ off)); [by inversion Hcl; subst|].
      by destruct (decide ((y ∉ on) ∧ is_Some (act_info (final the_run) !! y))).
    + intros [Hd Hoff]. exists x. split_and!; [done| |by rewrite decide_True].
      intros Hx. by destruct (Hmem x Hx).
  - rewrite closing_report_not_loaded by done. unfold classify_not_loaded. split.
    + intros (y & Hd & Hns & Hcl).
      destruct (decide (y ∈ off)); [done|].
      destruct (decide ((y ∉ on) ∧ is_Some (act_info (final the_run) !! y)))
        as [[Hnon Hin]|]; [|done].
      inversion Hcl; subst y. split_and!; [done..|]. by apply Hdom.
    + intros (Hd & Hns & Hoff & Hnon & Hin). exists x. split_and!; [done..|].
      rewrite decide_False by done. rewrite decide_True; [done|].
      split; [done|]. by apply Hdom.
  - unfold closing_report. rewrite elem_of_app, !list_elem_of_fmap. split.
    + intros [(y & Hcl & _)|(y & [= ->] & Hy)].
      * unfold classify_not_loaded in Hcl.
        destruct (decide (y ∈ off)); [done|].
        by destruct (decide ((y ∉ on) ∧ is_Some (act_info (final the_run) !! y))).
      * apply list_elem_of_filter in Hy as [? ?%set_iter_spec]. done.
    + intros [Hoff Hnd]. right. exists x. split; [done|].
      apply list_elem_of_filter. split; [done|]. by apply set_iter_spec.
Qed.
End ReportFacts.

Lemma unknown_reason_is_malformed_witness :
  NotLoadedUnknownReason "M" ∈
    load_plugins_report elements working_activator (Some mixed_listing)
      (ConfigData [ConfigEntry "B" true]) "" ().
Proof.
  apply (unknown_reason_is_malformed elements working_activator mixed_listing
           [ConfigEntry "B" true] "" () elements_iter "M").
  split_and!.
  - exists (list_to_set ["A"; "B"]). vm_compute. reflexivity.
  - vm_compute. set_solver.
  - vm_compute. set_solver.
  - vm_compute. reflexivity.
Defined.

Lemma report_classifies_witness :
  NotEnabledNotLoaded "C" ∈
    load_plugins_report elements working_activator (Some sample_listing)
      (ConfigData [ConfigEntry "B" true]) "" ().
Proof.
  destruct (report_classifies elements working_activator sample_listing
              [ConfigEntry "B" true] "" () elements_iter (list_to_set ["A"; "B"]) "C")
    as (_ & Hne & _).
  - vm_compute. reflexivity.
  - apply Hne. split_and!.
    + vm_compute. set_solver.
    + vm_compute. set_solver.
    + vm_compute. set_solver.
    + vm_compute. set_solver.
    + vm_compute. eauto.
Defined.

(** ** The requirements step *)

Section ProvisionFacts.
Context {World : Type}.
Variable prov : provisioner World.

Lemma process_line_calls (st : prov_state World) (raw : string) :
  (process_line prov st raw = st) ∨
  (is_requirement (strip raw) = true ∧
   parse_requirement prov (strip raw) = true ∧
   get_distribution prov (strip raw) (prov_world st) = DistMissing ∧
   pip_calls (process_line prov st raw) = pip_calls st ++ [strip raw]).
Proof.
  unfold process_line.
  destruct (is_requirement (strip raw)); [|by left].
  destruct (parse_requirement prov (strip raw)); [|by left].
  destruct (get_distribution prov (strip raw) (prov_world st)); [by left| |by left].
  right. by destruct (pip_install prov (strip raw) (prov_world st)).
Qed.

Lemma foldl_process_line_calls (lines : list string) (st : prov_state World) (l : string) :
  l ∈ pip_calls (foldl (process_line prov) st lines) →
  l ∈ pip_calls st ∨
  ∃ raw w, raw ∈ lines ∧ l = strip raw ∧ is_requirement l = true ∧
    parse_requirement prov l = true ∧ get_distribution prov l w = DistMissing.
Proof.
  revert st. induction lines as [|raw lines IH]; intros st; simpl; [by left|].
  intros [Hl|(raw' & w' & Hraw & ?)]%IH.
  - destruct (process_line_calls st raw) as [Heq|(Hreq & Hparse & Hdist & Hcalls)].
    + left. by rewrite Heq in Hl.
    + rewrite Hcalls in Hl. apply elem_of_app in Hl as [?|Hl%list_elem_of_singleton]; [by left|].
      subst l. right. exists raw, (prov_world st). split; [left|done].
  - right. exists raw', w'. split; [by right|done].
Qed.

Lemma provision_calls (requirements_txt : string → option (list string))
    (listing : list dir_entry) (st : prov_state World) (l : string) :
  l ∈ pip_calls (foldl (provision_entry prov requirements_txt) st listing) →
  l ∈ pip_calls st ∨
  ∃ e lines raw w, e ∈ listing ∧ is_dir e = true ∧
    requirements_txt (entry_name e) = Some lines ∧ raw ∈ lines ∧
    l = strip raw ∧ is_requirement l = true ∧
    parse_requirement prov l = true ∧ get_distribution prov l w = DistMissing.
Proof.
  revert st. induction listing as [|e listing IH]; intros st; simpl; [by left|].
  intros [Hl|(e' & lines & raw & w' & He' & ?)]%IH.
  - unfold provision_entry, process_requirements in Hl.
    destruct (is_dir e) eqn:Hdir; simpl in Hl; [|by left].
    destruct (requirements_txt (entry_name e)) as [lines|] eqn:Hfile; [|by left].
    apply foldl_process_line_calls in Hl as [?|(raw & w' & Hraw & ?)]; [by left|].
    right. exists e, lines, raw, w'. split; [left|done].
  - right. exists e', lines, raw, w'. split; [by right|done].
Qed.

Lemma foldl_process_line_all (lines : list string) (st : prov_state World) :
  (∀ l, parse_requirement prov l = true) →
  (∀ l w, get_distribution prov l w = DistMissing) →
  pip_calls (foldl (process_line prov) st lines) =
  pip_calls st ++ filter (λ l, is_requirement l = true) (strip <$> lines).
Proof.
  intros Hparse Hdist. revert st.
  induction lines as [|raw lines IH]; intros st; simpl; [by rewrite app_nil_r|].
  rewrite IH. unfold process_line. rewrite Hparse, Hdist.
  destruct (is_requirement (strip raw)) eqn:Hreq.
  - rewrite filter_cons_True by done.
    destruct (pip_install prov (strip raw) (prov_world st)). simpl.
    by rewrite <- app_assoc.
  - rewrite filter_cons_False by (by rewrite Hreq). done.
Qed.
End ProvisionFacts.

(** X16: every line handed to pip is the stripped form of a line of the
    requirements.txt of a directory of the listing; it is not blank, is
    not a comment, parsed as a requirement, and was found missing.
    Blank lines, comment lines and the entries that are not directories
    never reach pip. *)
Theorem pip_only_for_missing_requirements {World : Type} (prov : provisioner World)
    (requirements_txt : string → option (list string)) (listing : list dir_entry)
    (w : World) (l : string) :
  l ∈ pip_calls (provision prov requirements_txt listing w) →
  ∃ e lines raw w', e ∈ listing ∧ is_dir e = true ∧
    requirements_txt (entry_name e) = Some lines ∧ raw ∈ lines ∧
    l = strip raw ∧ is_requirement l = true ∧
    parse_requirement prov l = true ∧ get_distribution prov l w' = DistMissing.
Proof.
  unfold provision. intros [Hl|H]%provision_calls; [|done].
  by apply elem_of_nil in Hl.
Qed.

Lemma pip_only_for_missing_requirements_witness :
  ∃ e lines raw w', e ∈ sample_listing ∧ is_dir e = true ∧
    sample_requirements (entry_name e) = Some lines ∧ raw ∈ lines ∧
    "flask" = strip raw ∧ is_requirement "flask" = true ∧
    parse_requirement bare_provisioner "flask" = true ∧
    get_distribution bare_provisioner "flask" w' = DistMissing.
Proof.
  apply (pip_only_for_missing_requirements bare_provisioner sample_requirements
           sample_listing ()).
  vm_compute. set_solver.
Defined.

(** X17: a requirement that the packaging tools never report missing is
    never handed to pip, whatever the files hold. *)
Theorem satisfied_never_installed {World : Type} (prov : provisioner World)
    (requirements_txt : string → option (list string)) (listing : list dir_entry)
    (w : World) (l : string) :
  (∀ w', get_distribution prov l w' ≠ DistMissing) →
  l ∉ pip_calls (provision prov requirements_txt listing w).
Proof.
  intros Hfound Hl. unfold provision in Hl.
  apply provision_calls in Hl as [Hl|(e & lines & raw & w' & _ & _ & _ & _ & _ & _ & _ & Hd)].
  - by apply elem_of_nil in Hl.
  - by apply (Hfound w').
Qed.

Lemma satisfied_never_installed_witness :
  "flask" ∉ pip_calls (provision stocked_provisioner sample_requirements sample_listing ()).
Proof.
  apply (satisfied_never_installed stocked_provisioner sample_requirements
           sample_listing () "flask").
  intros w'. simpl. discriminate.
Defined.

(** X18: a failing installation stops nothing: when every line parses
    and every requirement is missing, each line of a requirements.txt
    that is neither blank nor a comment is handed to pip, in file order,
    whether the earlier pip calls succeeded or raised. *)
Theorem pip_failures_do_not_stop {World : Type} (prov : provisioner World)
    (lines : list string) (st : prov_state World) :
  (∀ l, parse_requirement prov l = true) →
  (∀ l w, get_distribution prov l w = DistMissing) →
  pip_calls (process_requirements prov (Some lines) st) =
  pip_calls st ++ filter (λ l, is_requirement l = true) (strip <$> lines).
Proof. intros Hparse Hdist. simpl. by apply foldl_process_line_all. Qed.

Lemma pip_failures_do_not_stop_witness :
  pip_calls (process_requirements bare_provisioner
               (Some ["# pinned"; ""; " requests>=2.0 "; "flask"]) (ProvState () [])) =
  [] ++ filter (λ l, is_requirement l = true)
          (strip <$> ["# pinned"; ""; " requests>=2.0 "; "flask"]).
Proof.
  apply (pip_failures_do_not_stop bare_provisioner
           ["# pinned"; ""; " requests>=2.0 "; "flask"] (ProvState () [])).
  - done.
  - done.
Defined.

(** ** Plugins that the traversal does not reach *)

Lemma visit_each_ext (f g : string → marks → res marks) (deps : list string) (st : marks) :
  (∀ d s, d ∈ deps → f d s = g d s) → visit_each f deps st = visit_each g deps st.
Proof.
  revert st. induction deps as [|d deps IH]; intros st Hfg; simpl; [done|].
  rewrite <- (Hfg d st) by left.
  destruct (f d st); simpl; [|done..].
  apply IH. intros d' s Hd'. apply Hfg. by right.
Qed.

Lemma visit_each_more (f g : string → marks → res marks) (deps : list string) (st : marks) :
  (∀ d s, f d s ≠ OutOfFuel → g d s = f d s) →
  visit_each f deps st ≠ OutOfFuel → visit_each g deps st = visit_each f deps st.
Proof.
  intros Hfg. revert st. induction deps as [|d deps IH]; intros st; simpl; [done|].
  destruct (f d st) as [st'|e|] eqn:Hd; simpl; intros Hne.
  - rewrite (Hfg d st), Hd by (by rewrite Hd). simpl. by apply IH.
  - by rewrite (Hfg d st), Hd by (by rewrite Hd).
  - done.
Qed.

Lemma visit_more_fuel (info : gmap string plugin) (disabled : gset string)
    (fuel : nat) (n : string) (st : marks) :
  visit info disabled fuel n st ≠ OutOfFuel →
  visit info disabled (S fuel) n st = visit info disabled fuel n st.
Proof.
  revert n st. induction fuel as [|fuel IH]; intros n st; [done|].
  remember (S fuel) as k eqn:Hk. simpl. subst k. simpl.
  destruct (decide (n ∈ temp_marks st)); [done|].
  destruct (decide (n ∈ visited st)); [done|].
  destruct (info !! n) as [p|]; [|done].
  destruct (decide (n ∈ disabled)); [done|].
  intros Hne.
  rewrite (visit_each_more (visit info disabled fuel) (visit info disabled (S fuel)));
    [done|by intros d s; apply IH|].
  intros Hout. by rewrite Hout in Hne.
Qed.

Lemma visit_fuel_le (info : gmap string plugin) (disabled : gset string)
    (fuel fuel' : nat) (n : string) (st : marks) :
  (fuel ≤ fuel')%nat → visit info disabled fuel n st ≠ OutOfFuel →
  visit info disabled fuel' n st = visit info disabled fuel n st.
Proof.
  intros Hle Hne. induction Hle as [|fuel' Hle IH]; [done|].
  rewrite visit_more_fuel; [done|]. by rewrite IH.
Qed.

Lemma visit_enabled_fuel_le (info : gmap string plugin) (disabled : gset string)
    (fuel fuel' : nat) (names : list string) (st : marks) :
  (fuel ≤ fuel')%nat → visit_enabled info disabled fuel names st ≠ OutOfFuel →
  visit_enabled info disabled fuel' names st = visit_enabled info disabled fuel names st.
Proof.
  intros Hle. revert st. induction names as [|r names IH]; intros st; simpl; [done|].
  destruct (info !! r); [|apply IH].
  destruct (decide (r ∈ visited st)); [apply IH|].
  destruct (visit info disabled fuel r st) as [st'|e|] eqn:Hr; simpl; intros Hne.
  - rewrite (visit_fuel_le info disabled fuel fuel' r st Hle), Hr by (by rewrite Hr).
    simpl. by apply IH.
  - by rewrite (visit_fuel_le info disabled fuel fuel' r st Hle), Hr by (by rewrite Hr).
  - done.
Qed.

Lemma visit_agree (info info' : gmap string plugin) (disabled : gset string)
    (fuel : nat) (n : string) (st : marks) :
  (∀ x, rtc (dep info) n x → info' !! x = info !! x) →
  visit info' disabled fuel n st = visit info disabled fuel n st.
Proof.
  revert n st. induction fuel as [|fuel IH]; intros n st Hsame; simpl; [done|].
  destruct (decide (n ∈ temp_marks st)); [done|].
  destruct (decide (n ∈ visited st)); [done|].
  rewrite (Hsame n) by done.
  destruct (info !! n) as [p|] eqn:Hp; [|done].
  destruct (decide (n ∈ disabled)); [done|].
  rewrite (visit_each_ext (visit info' disabled fuel) (visit info disabled fuel)); [done|].
  intros d s Hd. apply IH. intros x Hx. apply Hsame.
  eapply rtc_l; [|done]. by exists p.
Qed.

Lemma visit_enabled_agree (info info' : gmap string plugin) (disabled : gset string)
    (fuel : nat) (names : list string) (st : marks) :
  (∀ r x, r ∈ names → rtc (dep info) r x → info' !! x = info !! x) →
  visit_enabled info' disabled fuel names st = visit_enabled info disabled fuel names st.
Proof.
  revert st. induction names as [|r names IH]; intros st Hsame; simpl; [done|].
  assert (Hrest : ∀ r' x, r' ∈ names → rtc (dep info) r' x → info' !! x = info !! x)
    by (intros r' x Hr'; apply Hsame; by right).
  rewrite (Hsame r r) by (done || left).
  destruct (info !! r); [|by apply IH].
  destruct (decide (r ∈ visited st)); [by apply IH|].
  rewrite (visit_agree info info') by (intros x; apply Hsame; left).
  destruct (visit info disabled fuel r st); simpl; [by apply IH|done..].
Qed.

Lemma resolve_agree (info info' : gmap string plugin) (disabled : gset string)
    (names : list string) :
  (∀ r x, r ∈ names → rtc (dep info) r x → info' !! x = info !! x) →
  resolve info' disabled names = resolve info disabled names.
Proof.
  intros Hsame. unfold resolve.
  set (m := depth_budget info `max` depth_budget info').
  rewrite <- (visit_enabled_fuel_le info disabled (depth_budget info) m);
    [|lia|by apply visit_enabled_fuel; unfold depth_budget; [|lia]].
  rewrite <- (visit_enabled_fuel_le info' disabled (depth_budget info') m);
    [|lia|by apply visit_enabled_fuel; unfold depth_budget; [|lia]].
  by rewrite (visit_enabled_agree info info').
Qed.

Lemma activate_one_same {World : Type} (act : activator World)
    (a b : act_state World) (n : string) :
  world a = world b → attempted a = attempted b →
  is_Some (act_info a !! n) → is_Some (act_info b !! n) →
  (∃ a' b', activate_one act a n = Completed a' ∧ activate_one act b n = Completed b' ∧
     world a' = world b' ∧ attempted a' = attempted b' ∧
     dom (act_info a') = dom (act_info a) ∧ dom (act_info b') = dom (act_info b)) ∨
  (∃ a' b', activate_one act a n = Escaped BaseExceptionEscapes a' ∧
     activate_one act b n = Escaped BaseExceptionEscapes b' ∧
     world a' = world b' ∧ attempted a' = attempted b').
Proof.
  intros Hw Ht [p Hp] [q Hq]. unfold activate_one. rewrite Hp, Hq, <- Hw, <- Ht.
  assert (Hda : dom (<[n:=set_loaded p]> (act_info a)) = dom (act_info a)).
  { rewrite dom_insert_L. assert (n ∈ dom (act_info a)) by (apply elem_of_dom; eauto).
    apply set_eq. intros y. rewrite elem_of_union, elem_of_singleton.
    split; [by intros [ -> |?]|by right]. }
  assert (Hdb : dom (<[n:=set_loaded q]> (act_info b)) = dom (act_info b)).
  { rewrite dom_insert_L. assert (n ∈ dom (act_info b)) by (apply elem_of_dom; eauto).
    apply set_eq. intros y. rewrite elem_of_union, elem_of_singleton.
    split; [by intros [ -> |?]|by right]. }
  destruct (exec_module act n (world a)) as [[|[|]|] w1].
  - left. by eexists _, _.
  - destruct (init_plugin act n w1) as [[| |] w2].
    + left. by eexists _, _.
    + left. by eexists _, _.
    + right. by eexists _, _.
  - left. by eexists _, _.
  - right. by eexists _, _.
Qed.

Lemma activate_all_same {World : Type} (act : activator World)
    (order : list string) (a b : act_state World) :
  world a = world b → attempted a = attempted b →
  (∀ x, x ∈ order → is_Some (act_info a !! x) ∧ is_Some (act_info b !! x)) →
  (∃ a' b', activate_all act order a = Completed a' ∧ activate_all act order b = Completed b' ∧
     world a' = world b' ∧ attempted a' = attempted b') ∨
  (∃ a' b', activate_all act order a = Escaped BaseExceptionEscapes a' ∧
     activate_all act order b = Escaped BaseExceptionEscapes b' ∧
     world a' = world b' ∧ attempted a' = attempted b').
Proof.
  revert a b. induction order as [|n order IH]; intros a b Hw Ht Hin; simpl.
  - left. by exists a, b.
  - destruct (Hin n) as [Ha Hb]; [left|].
    destruct (activate_one_same act a b n Hw Ht Ha Hb)
      as [(a1 & b1 & -> & -> & Hw1 & Ht1 & Hda & Hdb)|(a1 & b1 & -> & -> & Hw1 & Ht1)].
    + apply IH; [done..|]. intros x Hx. destruct (Hin x) as [Hxa Hxb]; [by right|].
      by rewrite <- !elem_of_dom, Hda, Hdb, !elem_of_dom.
    + right. by exists a1, b1.
Qed.

(** X19: plugins outside the dependency closure of the enabled set do
    not matter: two plugin directories whose catalogs agree on every name
    of that closure give the same returned value and run the same plugin
    code in the same order, whatever else they hold. *)
Theorem unreachable_plugins_irrelevant {World : Type} (set_iter : gset string → list string)
    (act : activator World) (listing listing' : list dir_entry)
    (plugins : list config_entry) (env_plugins : string) (w : World) :
  (∀ (s : gset string) (x : string), x ∈ set_iter s ↔ x ∈ s) →
  (∀ x, closure (plugin_info (build_catalog listing))
          (enabled_plugins (build_policy plugins env_plugins)) x →
        plugin_info (build_catalog listing') !! x = plugin_info (build_catalog listing) !! x) →
  result (load_plugins set_iter act (Some listing') (ConfigData plugins) env_plugins w) =
  result (load_plugins set_iter act (Some listing) (ConfigData plugins) env_plugins w) ∧
  attempted (final (load_plugins set_iter act (Some listing') (ConfigData plugins) env_plugins w)) =
  attempted (final (load_plugins set_iter act (Some listing) (ConfigData plugins) env_plugins w)).
Proof.
  intros Hiter Hsame.
  assert (Hres : resolve (plugin_info (build_catalog listing'))
            (disabled_plugins (build_policy plugins env_plugins))
            (set_iter (enabled_plugins (build_policy plugins env_plugins))) =
          resolve (plugin_info (build_catalog listing))
            (disabled_plugins (build_policy plugins env_plugins))
            (set_iter (enabled_plugins (build_policy plugins env_plugins)))).
  { apply resolve_agree. intros r x Hr Hrx. apply Hsame. exists r.
    split; [by apply Hiter|done]. }
  destruct (resolve (plugin_info (build_catalog listing))
              (disabled_plugins (build_policy plugins env_plugins))
              (set_iter (enabled_plugins (build_policy plugins env_plugins))))
    as [order|e|] eqn:Hr.
  - destruct (load_plugins_done set_iter act listing plugins env_plugins w order Hr)
      as [Hin _].
    destruct (load_plugins_done set_iter act listing' plugins env_plugins w order Hres)
      as [Hin' _].
    unfold load_plugins. rewrite Hr, Hres.
    destruct (activate_all_same act order
                (ActState (plugin_info (build_catalog listing')) w [])
                (ActState (plugin_info (build_catalog listing)) w []))
      as [(a' & a & -> & -> & _ & Ht)|(a' & a & -> & -> & _ & Ht)]; [done..| | |]; simpl.
    + intros x Hx. split; [by apply Hin'|by apply Hin].
    + done.
    + done.
  - rewrite (load_plugins_raised set_iter act listing plugins env_plugins w e Hr).
    by rewrite (load_plugins_raised set_iter act listing' plugins env_plugins w e Hres).
  - by apply resolve_total in Hr.
Qed.

Lemma unreachable_plugins_irrelevant_witness :
  result (load_plugins elements working_activator (Some chain_listing)
            (ConfigData [ConfigEntry "B" true]) "" ()) =
  result (load_plugins elements working_activator (Some sample_listing)
            (ConfigData [ConfigEntry "B" true]) "" ()) ∧
  attempted (final (load_plugins elements working_activator (Some chain_listing)
                      (ConfigData [ConfigEntry "B" true]) "" ())) =
  attempted (final (load_plugins elements working_activator (Some sample_listing)
                      (ConfigData [ConfigEntry "B" true]) "" ())).
Proof.
  apply (unreachable_plugins_irrelevant elements working_activator sample_listing
           chain_listing [ConfigEntry "B" true] "" () elements_iter).
  intros x (r & Hr & Hrx).
  assert (Hon : enabled_plugins (build_policy [ConfigEntry "B" true] "") = {["B"]})
    by (vm_compute; reflexivity).
  rewrite Hon in Hr. apply elem_of_singleton in Hr as ->.
  assert (HB : plugin_info (build_catalog sample_listing) !! "B" = Some (new_plugin ["A"]))
    by (vm_compute; reflexivity).
  assert (HA : plugin_info (build_catalog sample_listing) !! "A" = Some (new_plugin []))
    by (vm_compute; reflexivity).
  inversion Hrx as [|? y ? (p & Hp & Hd) Hyx]; subst; [vm_compute; reflexivity|].
  rewrite HB in Hp. inversion Hp; subst p. simpl in Hd.
  apply list_elem_of_singleton in Hd as ->.
  inversion Hyx as [|? z ? (q & Hq & Hd') _]; subst; [vm_compute; reflexivity|].
  rewrite HA in Hq. inversion Hq; subst q. simpl in Hd'. by apply elem_of_nil in Hd'.
Defined.

(** ** The run-level properties on sample configurations *)

Lemma reverse_iter (s : gset string) (x : string) : x ∈ reverse (elements s) ↔ x ∈ s.
Proof. rewrite elem_of_reverse. apply elem_of_elements. Qed.

Lemma resolves_iff_resolvable_witness :
  resolvable (plugin_info (build_catalog sample_listing))
    (build_policy [ConfigEntry "B" true] "").
Proof.
  destruct (resolves_iff_resolvable elements working_activator sample_listing
              [ConfigEntry "B" true] "" () elements_iter) as [[Hdone _] _].
  apply Hdone. exists ["A"; "B"]. vm_compute. reflexivity.
Defined.



Lemma iteration_order_irrelevant_witness :
  result (load_plugins (λ s, reverse (elements s)) failing_activator (Some sample_listing)
            (ConfigData [ConfigEntry "B" true; ConfigEntry "A" true]) "" ())
  = ReturnSet (list_to_set ["A"; "B"]).
Proof.
  destruct (iteration_order_irrelevant elements (λ s, reverse (elements s))
              working_activator failing_activator (Some sample_listing)
              (ConfigData [ConfigEntry "B" true; ConfigEntry "A" true]) "" () ()
              elements_iter reverse_iter) as (_ & Hnever & _).
  apply Hnever.
  - intros n w. reflexivity.
  - vm_compute. reflexivity.
Defined.
